(** * pocket_dedupe.py: duplicate detection over a Pocket article list

    A shallow embedding of [src/pocket_dedupe.py].  Python strings are
    sequences of Unicode code points; the script's effects (console,
    browser, the Pocket client objects, the module-level name
    [PocketInstance]) are threaded through a state-and-exception monad.
    The [pocket] package and the service behind it are collaborators of the
    script: they are modelled as far as the script calls them, with calls to
    the service that succeed. *)

From Stdlib Require Import String Ascii NArith Decimal.
From stdpp Require Import base tactics option list.

(** ** Python [str] *)

(** A code point. *)
Definition char : Type := N.

(** A Python [str]. *)
Definition str : Type := list char.

(** A literal of the source, written as a Rocq string (the literals of the
    script are ASCII). *)
Definition lit (s : string) : str := N_of_ascii <$> list_ascii_of_string s.

(** The exceptions the script can meet: [ValueError] from [str.index],
    [NameError] from a module-level name that is not bound, [EOFError] from
    [input] at the end of the input. *)
Inductive exn : Type :=
| ValueError
| NameError (name : string)
| EOFError.

(** [s.find(sub)]: the lowest index at which [sub] occurs in [s]. *)
Fixpoint str_find (s sub : str) {struct s} : option nat :=
  if decide (sub `prefix_of` s) then Some 0
  else match s with
       | [] => None
       | _ :: s' => S <$> str_find s' sub
       end.

(** [sub in s]. *)
Definition str_in (sub s : str) : bool :=
  bool_decide (is_Some (str_find s sub)).

(** [s.index(sub)]: like [find], but raises [ValueError] when absent. *)
Definition str_index (s sub : str) : exn + nat :=
  match str_find s sub with
  | Some i => inr i
  | None => inl ValueError
  end.

(** [str.isspace] on one code point (CPython's [_PyUnicode_IsWhitespace]). *)
Definition is_whitespace (c : char) : bool :=
  ((9 <=? c) && (c <=? 13) || (28 <=? c) && (c <=? 32)
   || (c =? 133) || (c =? 160) || (c =? 5760)
   || (8192 <=? c) && (c <=? 8202)
   || (c =? 8232) || (c =? 8233) || (c =? 8239) || (c =? 8287)
   || (c =? 12288))%N.

(** [s.lstrip()]. *)
Fixpoint lstrip (s : str) : str :=
  match s with
  | c :: s' => if is_whitespace c then lstrip s' else s
  | [] => []
  end.

(** [s.rstrip()]. *)
Definition rstrip (s : str) : str := reverse (lstrip (reverse s)).

(** [s.strip()]. *)
Definition strip (s : str) : str := rstrip (lstrip s).

(** The decimal digits of a number, as characters. *)
Fixpoint digits (d : Decimal.uint) : str :=
  match d with
  | Nil => []
  | D0 d => 48%N :: digits d
  | D1 d => 49%N :: digits d
  | D2 d => 50%N :: digits d
  | D3 d => 51%N :: digits d
  | D4 d => 52%N :: digits d
  | D5 d => 53%N :: digits d
  | D6 d => 54%N :: digits d
  | D7 d => 55%N :: digits d
  | D8 d => 56%N :: digits d
  | D9 d => 57%N :: digits d
  end.

(** [str(n)], as an f-string renders a length. *)
Definition str_of_nat (n : nat) : str := digits (Nat.to_uint n).

(** ** URL normalisation (lines 24-29, 86-99, 140-142) *)

(** [STRIP_PARAMETERS] (lines 24-29). *)
Definition STRIP_PARAMETERS : list str :=
  [ lit "?utm"; lit "&utm"; lit "?CMP"; lit "&CMP" ].

(** [strip_url] (lines 86-99): [url[:url.index(char)]], or [url] when
    [index] raises (it raises nothing but [ValueError]). *)
Definition strip_url (url char : str) : str :=
  match str_index url char with
  | inr i => take i url
  | inl _ => url
  end.

(** One turn of the loop of lines 140-142. *)
Definition strip_param (article_url param : str) : str :=
  if str_in param article_url then strip_url article_url param
  else article_url.

(** The loop of lines 140-142 over a list of markers. *)
Definition strip_params (params : list str) (article_url : str) : str :=
  foldl strip_param article_url params.

(** The normalised URL: the loop run over [STRIP_PARAMETERS]. *)
Definition normalized_url (article_url : str) : str :=
  strip_params STRIP_PARAMETERS article_url.

(** ** The world the script runs in *)

(** A reference to a [Pocket] client object: its index in the object
    store.  Python references never dangle; a statement that speaks of the
    object behind a reference assumes the reference is in the store. *)
Abbreviation ref := nat (only parsing).

(** An entry of a client's [_bulk_query]: [{'action': 'delete', 'item_id': id}]. *)
Inductive action : Type :=
| action_delete (item_id : str).

(** A [Pocket] client object of the [pocket] package. *)
Record Pocket : Type := mkPocket {
  consumer_key : str;
  access_token : str;
  bulk_query : list action
}.

(** A value of [response_output["list"]], a dict keyed by item id that the
    loop walks in its order; the script reads two keys of each value, so the
    model keeps the values, in that order. *)
Record Item : Type := mkItem {
  item_id : str;
  given_url : str
}.

(** What the console shows: a printed line, or the prompt of an [input]. *)
Inductive output : Type :=
| Printed (line : str)
| Prompted (prompt : str).

(** Everything the script reads or changes. *)
Record World : Type := mkWorld {
  stdin : list str;                 (* the lines the user will type *)
  stdout : list output;             (* the console, oldest first *)
  tabs : list str;                  (* URLs opened in the browser *)
  heap : list Pocket;               (* the client objects *)
  PocketInstance : option ref;      (* the module-level name, if bound *)
  remote_list : list Item;          (* the saved items, oldest first *)
  remote_request_token : str;       (* reply of the request-token call *)
  remote_access_token : str;        (* reply of the access-token call *)
  remote_response : str;            (* rendering of the reply to a send *)
  remote_sent : list (list action)  (* batches the service has received *)
}.

(** The updates of a world, one field at a time. *)
Definition add_output (o : list output) (w : World) : World :=
  mkWorld (stdin w) (stdout w ++ o) (tabs w) (heap w) (PocketInstance w)
    (remote_list w) (remote_request_token w) (remote_access_token w)
    (remote_response w) (remote_sent w).

Definition set_stdin (i : list str) (w : World) : World :=
  mkWorld i (stdout w) (tabs w) (heap w) (PocketInstance w)
    (remote_list w) (remote_request_token w) (remote_access_token w)
    (remote_response w) (remote_sent w).

Definition add_tab (url : str) (w : World) : World :=
  mkWorld (stdin w) (stdout w) (tabs w ++ [url]) (heap w) (PocketInstance w)
    (remote_list w) (remote_request_token w) (remote_access_token w)
    (remote_response w) (remote_sent w).

Definition set_heap (h : list Pocket) (w : World) : World :=
  mkWorld (stdin w) (stdout w) (tabs w) h (PocketInstance w)
    (remote_list w) (remote_request_token w) (remote_access_token w)
    (remote_response w) (remote_sent w).

Definition set_PocketInstance (r : ref) (w : World) : World :=
  mkWorld (stdin w) (stdout w) (tabs w) (heap w) (Some r)
    (remote_list w) (remote_request_token w) (remote_access_token w)
    (remote_response w) (remote_sent w).

Definition add_sent (batch : list action) (w : World) : World :=
  mkWorld (stdin w) (stdout w) (tabs w) (heap w) (PocketInstance w)
    (remote_list w) (remote_request_token w) (remote_access_token w)
    (remote_response w) (remote_sent w ++ [batch]).

(** ** The monad of the script: state, and exceptions that keep the state *)

Definition M (A : Type) : Type := World -> (exn + A) * World.

#[global] Instance M_ret : MRet M := fun A a w => (inr a, w).

#[global] Instance M_bind : MBind M := fun A B f m w =>
  match m w with
  | (inr a, w') => f a w'
  | (inl e, w') => (inl e, w')
  end.

(** [print(line)]. *)
Definition print (line : str) : M unit :=
  fun w => (inr tt, add_output [Printed line] w).

(** [input(prompt)]: shows the prompt, then reads a line or meets the end of
    the input. *)
Definition input (prompt : str) : M str :=
  fun w =>
    match stdin w with
    | line :: rest => (inr line, set_stdin rest (add_output [Prompted prompt] w))
    | [] => (inl EOFError, add_output [Prompted prompt] w)
    end.

(** [webbrowser.open_new_tab(url)]. *)
Definition webbrowser_open_new_tab (url : str) : M unit :=
  fun w => (inr tt, add_tab url w).

(** Reading and binding the module-level name [PocketInstance]. *)
Definition load_PocketInstance : M ref :=
  fun w =>
    match PocketInstance w with
    | Some r => (inr r, w)
    | None => (inl (NameError "PocketInstance"), w)
    end.

Definition store_PocketInstance (r : ref) : M unit :=
  fun w => (inr tt, set_PocketInstance r w).

(** ** The [pocket] package, as far as the script calls it *)

(** [Pocket.get_request_token(consumer_key, redirect_uri)]. *)
Definition Pocket_get_request_token (consumer_key redirect_uri : str) : M str :=
  fun w => (inr (remote_request_token w), w).

(** [Pocket.get_auth_url(code, redirect_uri)]. *)
Definition Pocket_get_auth_url (code redirect_uri : str) : str :=
  lit "https://getpocket.com/auth/authorize?request_token=" ++ code
    ++ lit "&redirect_uri=" ++ redirect_uri.

(** [Pocket.get_access_token(consumer_key, code)]. *)
Definition Pocket_get_access_token (consumer_key code : str) : M str :=
  fun w => (inr (remote_access_token w), w).

(** [Pocket(consumer_key, access_token)]: a new object, nothing queued. *)
Definition Pocket_new (consumer_key access_token : str) : M ref :=
  fun w =>
    (inr (length (heap w)),
     set_heap (heap w ++ [mkPocket consumer_key access_token []]) w).

(** [self.get(state="all", sort="oldest")]: the [list] of the reply. *)
Definition Pocket_get (self : ref) : M (list Item) :=
  fun w => (inr (remote_list w), w).

(** Queued actions are appended to [_bulk_query]. *)
Definition bulk_append (q : list action) (p : Pocket) : Pocket :=
  mkPocket (consumer_key p) (access_token p) (bulk_query p ++ q).

(** [self.delete(item_id)], a bulk method called with its default
    [wait=True]: queues the action on [self] and returns [self]. *)
Definition Pocket_delete (self : ref) (item_id : str) : M ref :=
  fun w =>
    (inr self, set_heap (alter (bulk_append [action_delete item_id]) self (heap w)) w).

(** [self._bulk_query = []]. *)
Definition bulk_reset (p : Pocket) : Pocket :=
  mkPocket (consumer_key p) (access_token p) [].

(** [self.commit()]: sends [_bulk_query] as one batch, empties it and
    returns the reply. *)
Definition Pocket_commit (self : ref) : M str :=
  fun w =>
    (inr (remote_response w),
     add_sent (default [] (bulk_query <$> heap w !! self))
       (set_heap (alter bulk_reset self (heap w)) w)).

(** ** The script *)

(** [authenticate] (lines 32-58). *)
Definition authenticate (consumer_key redirect_uri : str) : M str :=
  request_token ← Pocket_get_request_token consumer_key redirect_uri;
  let auth_url := Pocket_get_auth_url request_token redirect_uri in
  print (lit "Opening a browser tab to authenticate with Pocket.");;
  webbrowser_open_new_tab auth_url;;
  _ ← input (lit "After you have authenticated in the browser, press Enter...");
  mret request_token.

(** [get_pocket_instance] (lines 61-83). *)
Definition get_pocket_instance (consumer_key : option str) (redirect_uri : str)
  : M ref :=
  consumer_key ←
    match consumer_key with
    | None => line ← input (lit "Enter your Pocket consumer key: "); mret (strip line)
    | Some k => mret k
    end;
  request_token ← authenticate consumer_key redirect_uri;
  access_token ← Pocket_get_access_token consumer_key request_token;
  Pocket_new consumer_key access_token.

(** The body of the loop of lines 134-157, for one [item]; the result is
    [article_cache] after the turn. *)
Definition scan_item (item : Item) (article_cache : list str) : M (list str) :=
  let article_id := item_id item in
  let article_url := given_url item in
  let original_article_url := article_url in
  let article_url := normalized_url article_url in
  if bool_decide (article_url ∈ article_cache) then
    print (lit "Duplicate article found: " ++ original_article_url);;
    global ← load_PocketInstance;
    _ ← Pocket_delete global article_id;
    mret article_cache
  else
    (if bool_decide (article_url ≠ original_article_url)
     then print (lit "Article with trackers found: " ++ original_article_url)
     else mret tt);;
    mret (article_cache ++ [article_url]).

(** The loop of lines 134-157. *)
Fixpoint scan_items (items_list : list Item) (article_cache : list str)
  : M (list str) :=
  match items_list with
  | [] => mret article_cache
  | item :: rest =>
      article_cache ← scan_item item article_cache;
      scan_items rest article_cache
  end.

(** [queue_dedupe_actions] (lines 102-157). *)
Definition queue_dedupe_actions (pocket_instance : ref) : M unit :=
  items_list ← Pocket_get pocket_instance;
  print (lit "Found " ++ str_of_nat (length items_list) ++ lit " articles.");;
  _ ← scan_items items_list [];
  mret tt.

(** The prompt of line 167. *)
Definition confirmation_prompt : str :=
  lit "Now's the time to review the changes that will be made. If you are happy to send this to the Pocket API, type in 'y' and press Enter: ".

(** The script run as [__main__] (lines 162-175). *)
Definition main : M unit :=
  session ← get_pocket_instance None (lit "https://google.com/");
  store_PocketInstance session;;
  session ← load_PocketInstance;
  queue_dedupe_actions session;;
  line ← input confirmation_prompt;
  let user_input := strip line in
  (if bool_decide (user_input = lit "y") then
     session ← load_PocketInstance;
     response ← Pocket_commit session;
     print (lit "Request sent. Response: " ++ response)
   else
     print (lit "Received input '" ++ user_input
            ++ lit "'. Modify request has not been sent."));;
  print (lit "The script has finished running.").

(** * Vocabulary of the statements *)

(** ** Occurrences and duplicates *)

(** [sub] occurs in [s] at index [i]. *)
Definition occurs_at (sub s : str) (i : nat) : Prop :=
  i ≤ length s ∧ sub `prefix_of` drop i s.

(** [r] stands in [items] after an item with the same normalised URL. *)
Definition later_duplicate (items : list Item) (r : Item) : Prop :=
  ∃ i j rj, j < i ∧ items !! i = Some r ∧ items !! j = Some rj ∧
            normalized_url (given_url rj) = normalized_url (given_url r).

(** The distinct elements of a list, each at its first occurrence. *)
Fixpoint first_occurrences (l : list str) : list str :=
  match l with
  | [] => []
  | x :: l' => x :: filter (λ y, y ≠ x) (first_occurrences l')
  end.

(** When the item at index [i] is visited, its normalised URL is that of an
    earlier item of the list, or was in the cache from the start. *)
Definition seen_before (c : list str) (items : list Item) (i : nat) (r : Item)
  : Prop :=
  normalized_url (given_url r) ∈ c ∨
  ∃ j rj, j < i ∧ items !! j = Some rj ∧
          normalized_url (given_url rj) = normalized_url (given_url r).

(** ** What a scan leaves behind, as functions of the list *)

(** The report of a first occurrence: a line when trackers were stripped. *)
Definition tracked_report (item : Item) : list output :=
  if bool_decide (normalized_url (given_url item) ≠ given_url item)
  then [Printed (lit "Article with trackers found: " ++ given_url item)]
  else [].

(** The report of a duplicate. *)
Definition duplicate_report (item : Item) : list output :=
  [Printed (lit "Duplicate article found: " ++ given_url item)].

(** The cache, the flagged items and the console lines of a scan that
    starts with cache [c], as functions of the list. *)
Fixpoint cache_after (c : list str) (items : list Item) : list str :=
  match items with
  | [] => c
  | r :: rest =>
      if bool_decide (normalized_url (given_url r) ∈ c) then cache_after c rest
      else cache_after (c ++ [normalized_url (given_url r)]) rest
  end.

Fixpoint flagged (c : list str) (items : list Item) : list Item :=
  match items with
  | [] => []
  | r :: rest =>
      if bool_decide (normalized_url (given_url r) ∈ c) then r :: flagged c rest
      else flagged (c ++ [normalized_url (given_url r)]) rest
  end.

Fixpoint reports (c : list str) (items : list Item) : list output :=
  match items with
  | [] => []
  | r :: rest =>
      if bool_decide (normalized_url (given_url r) ∈ c)
      then duplicate_report r ++ reports c rest
      else tracked_report r ++ reports (c ++ [normalized_url (given_url r)]) rest
  end.

(** The delete actions for a list of items. *)
Definition deletions (items : list Item) : list action :=
  (λ r, action_delete (item_id r)) <$> items.

(** ** The worlds of a run of the script *)

(** The console lines of the authentication. *)
Definition authentication_dialogue : list output :=
  [ Prompted (lit "Enter your Pocket consumer key: ");
    Printed (lit "Opening a browser tab to authenticate with Pocket.");
    Prompted (lit "After you have authenticated in the browser, press Enter...") ].

(** The world after [get_pocket_instance()], when the user typed [key] and
    then a line to go on. *)
Definition authenticated (key : str) (rest : list str) (w : World) : World :=
  set_heap (heap w ++ [mkPocket (strip key) (remote_access_token w) []])
    (set_stdin rest
       (add_tab (Pocket_get_auth_url (remote_request_token w)
                   (lit "https://google.com/"))
          (add_output authentication_dialogue w))).

(** The world when the confirmation is asked for. *)
Definition scanned (key : str) (rest : list str) (w : World) : World :=
  set_heap
    (heap w ++ [mkPocket (strip key) (remote_access_token w)
                  (deletions (flagged [] (remote_list w)))])
    (add_output
       (Printed (lit "Found " ++ str_of_nat (length (remote_list w))
                 ++ lit " articles.")
        :: reports [] (remote_list w))
       (set_PocketInstance (length (heap w)) (authenticated key rest w))).

(** The world once the confirmation has been read. *)
Definition answered (key : str) (rest : list str) (w : World) : World :=
  set_stdin rest
    (add_output [Prompted confirmation_prompt] (scanned key rest w)).

(** ** Variants of a URL *)

(** [u] is [base], or [base] followed by a configured marker and anything. *)
Definition variant_of (base u : str) : Prop :=
  u = base ∨ ∃ m rest, m ∈ STRIP_PARAMETERS ∧ u = base ++ m ++ rest.

(** ** What a scan leaves alone *)

(** From [w] to [w'] the input, the browser, the service and the binding of
    [PocketInstance] are the same; no client object is created and every
    object but the one [PocketInstance] names is the same; an object keeps
    its keys and what it had queued, and the console keeps what it showed. *)
Definition scan_frame (w w' : World) : Prop :=
  stdin w' = stdin w ∧
  tabs w' = tabs w ∧
  PocketInstance w' = PocketInstance w ∧
  remote_list w' = remote_list w ∧
  remote_request_token w' = remote_request_token w ∧
  remote_access_token w' = remote_access_token w ∧
  remote_response w' = remote_response w ∧
  remote_sent w' = remote_sent w ∧
  length (heap w') = length (heap w) ∧
  stdout w `prefix_of` stdout w' ∧
  (∀ r, PocketInstance w ≠ Some r → heap w' !! r = heap w !! r) ∧
  (∀ r p, heap w !! r = Some p → ∃ q, heap w' !! r = Some (bulk_append q p)).

(** ** Sample data *)

(** The list of the spec's scenario. *)
Definition example_items : list Item :=
  [ mkItem (lit "1") (lit "https://a.com/x?utm=1");
    mkItem (lit "2") (lit "https://a.com/x");
    mkItem (lit "3") (lit "https://b.com/y") ].

Definition example_session : Pocket := mkPocket (lit "key") (lit "token") [].

Definition example_world (typed : list str) (objects : list Pocket)
    (global : option ref) : World :=
  mkWorld typed [] [] objects global example_items
    (lit "code") (lit "token") (lit "ok") [].

(** A world whose saved-item list is empty. *)
Definition empty_account (typed : list str) : World :=
  mkWorld typed [] [] [] None [] (lit "code") (lit "token") (lit "ok") [].

(** * Properties *)

Arguments lit : simpl never.
Arguments strip : simpl never.

(** ** Substring search *)

Lemma occurs_at_0 sub s : occurs_at sub s 0 ↔ sub `prefix_of` s.
Proof. unfold occurs_at. rewrite drop_0. intuition lia. Qed.

Lemma occurs_at_S sub c s i : occurs_at sub (c :: s) (S i) ↔ occurs_at sub s i.
Proof. unfold occurs_at. simpl. intuition lia. Qed.

Lemma occurs_at_nil sub i : occurs_at sub [] i → sub `prefix_of` [].
Proof. intros [_ H]. by rewrite drop_nil in H. Qed.

Lemma occurs_at_length sub s i : occurs_at sub s i → i + length sub ≤ length s.
Proof.
  intros [Hi Hp]. apply prefix_length in Hp. rewrite length_drop in Hp. lia.
Qed.

Lemma occurs_at_split sub s i :
  occurs_at sub s i ↔ ∃ rest, s = take i s ++ sub ++ rest ∧ i ≤ length s.
Proof.
  split.
  - intros [Hi [rest Hrest]]. exists rest. split; [|done].
    by rewrite <- Hrest, take_drop.
  - intros (rest & Hs & Hi). split; [done|]. exists rest.
    apply (app_inv_head (take i s)). by rewrite take_drop.
Qed.

(** An occurrence inside a prefix is an occurrence in the whole. *)
Lemma occurs_at_prefix sub u s i :
  u `prefix_of` s → occurs_at sub u i → occurs_at sub s i.
Proof.
  intros [k ->] [Hi Hp]. split.
  - rewrite length_app. lia.
  - rewrite drop_app_le by done. by apply prefix_app_r.
Qed.

(** An occurrence in the whole that ends inside a prefix occurs in it. *)
Lemma occurs_at_within sub u s i :
  u `prefix_of` s → occurs_at sub s i → i + length sub ≤ length u →
  occurs_at sub u i.
Proof.
  intros [k ->] [Hi Hp] Hlen. split; [lia|].
  rewrite drop_app_le in Hp by lia.
  destruct (prefix_weak_total sub (drop i u) (drop i u ++ k)) as [H|H];
    [done|by apply prefix_app_r|done|].
  apply prefix_length_eq in H as ->; [done|]. rewrite length_drop. lia.
Qed.

Lemma str_find_sound s sub :
  match str_find s sub with
  | Some i => occurs_at sub s i ∧ ∀ j, j < i → ¬ occurs_at sub s j
  | None => ∀ j, ¬ occurs_at sub s j
  end.
Proof.
  induction s as [|c s IH]; simpl.
  - case_decide as Hp.
    + split; [by apply occurs_at_0|lia].
    + intros j Hocc. by apply occurs_at_nil in Hocc.
  - case_decide as Hp.
    + split; [by apply occurs_at_0|lia].
    + destruct (str_find s sub) as [i|]; simpl.
      * destruct IH as [Hocc Hmin]. split; [by apply occurs_at_S|].
        intros [|j] Hj; [by rewrite occurs_at_0|].
        rewrite occurs_at_S. apply Hmin. lia.
      * intros [|j]; [by rewrite occurs_at_0|]. rewrite occurs_at_S. apply IH.
Qed.

Lemma str_find_Some s sub i :
  str_find s sub = Some i ↔ occurs_at sub s i ∧ ∀ j, j < i → ¬ occurs_at sub s j.
Proof.
  pose proof (str_find_sound s sub) as H.
  destruct (str_find s sub) as [i'|].
  - destruct H as [Hocc Hmin]. split.
    + by intros [= <-].
    + intros [Hocc' Hmin']. f_equal.
      destruct (lt_eq_lt_dec i i') as [[Hlt| ->]|Hlt]; [|done|].
      * by apply Hmin in Hlt.
      * by apply Hmin' in Hlt.
  - split; [done|]. intros [Hocc _]. by apply H in Hocc.
Qed.

Lemma str_find_None s sub :
  str_find s sub = None ↔ ∀ j, ¬ occurs_at sub s j.
Proof.
  pose proof (str_find_sound s sub) as H.
  destruct (str_find s sub) as [i|]; [|done].
  destruct H as [Hocc _]. split; [done|]. intros Hno. by apply Hno in Hocc.
Qed.

Lemma str_in_true sub s : str_in sub s = true ↔ ∃ i, str_find s sub = Some i.
Proof. unfold str_in. rewrite bool_decide_eq_true. done. Qed.

Lemma str_in_false sub s : str_in sub s = false ↔ str_find s sub = None.
Proof.
  unfold str_in. rewrite bool_decide_eq_false, <- eq_None_not_Some. done.
Qed.

(** The first occurrence inside a prefix is the first occurrence in the whole. *)
Lemma str_find_prefix u s sub i :
  u `prefix_of` s → str_find u sub = Some i → str_find s sub = Some i.
Proof.
  intros Hpre. rewrite !str_find_Some. intros [Hocc Hmin]. split.
  - by apply (occurs_at_prefix _ u).
  - intros j Hj Hoj. apply (Hmin j Hj).
    apply (occurs_at_within _ _ s); [done..|].
    apply occurs_at_length in Hocc, Hoj. lia.
Qed.

(** A prefix of a string without [sub] is without [sub]. *)
Lemma str_find_None_prefix u s sub :
  u `prefix_of` s → str_find s sub = None → str_find u sub = None.
Proof.
  intros Hpre. rewrite !str_find_None. intros Hno j Hoj.
  apply (Hno j). by apply (occurs_at_prefix _ u).
Qed.

(** What is left of the first occurrence of a non-empty [sub] is without it. *)
Lemma str_find_take s sub i :
  sub ≠ [] → str_find s sub = Some i → str_find (take i s) sub = None.
Proof.
  intros Hne. rewrite str_find_Some, str_find_None. intros [Hocc Hmin] j Hoj.
  pose proof (occurs_at_length _ _ _ Hoj) as Hlen.
  rewrite length_take in Hlen.
  assert (0 < length sub) by (destruct sub; [done|simpl; lia]).
  apply (Hmin j); [lia|].
  apply (occurs_at_prefix _ (take i s)); [apply prefix_take|done].
Qed.

(** ** URL normalisation *)

Lemma strip_url_prefix url m : strip_url url m `prefix_of` url.
Proof.
  unfold strip_url, str_index. destruct (str_find url m); [apply prefix_take|done].
Qed.

Lemma strip_param_prefix u m : strip_param u m `prefix_of` u.
Proof. unfold strip_param. destruct (str_in m u); [apply strip_url_prefix|done]. Qed.

Lemma strip_params_prefix ms u : strip_params ms u `prefix_of` u.
Proof.
  revert u. induction ms as [|m ms IH]; intros u; simpl; [done|].
  etrans; [apply IH|apply strip_param_prefix].
Qed.

Lemma strip_param_absent u m : str_in m u = false → strip_param u m = u.
Proof. unfold strip_param. by intros ->. Qed.

Lemma strip_param_present u m i :
  str_find u m = Some i → strip_param u m = take i u.
Proof.
  intros Hf. unfold strip_param, strip_url, str_index.
  rewrite Hf. by rewrite (proj2 (str_in_true m u)) by eauto.
Qed.

(** Without any marker the loop changes nothing. *)
Lemma strip_params_absent ms u :
  (∀ m, m ∈ ms → str_in m u = false) → strip_params ms u = u.
Proof.
  induction ms as [|m ms IH]; intros Habs; simpl; [done|].
  rewrite strip_param_absent by (apply Habs; left).
  apply IH. intros m' Hm'. apply Habs. by right.
Qed.

Lemma strip_param_clean u m : m ≠ [] → str_find (strip_param u m) m = None.
Proof.
  intros Hne. destruct (str_find u m) as [i|] eqn:Hf.
  - rewrite (strip_param_present _ _ i) by done. by apply str_find_take.
  - rewrite strip_param_absent by by apply str_in_false. done.
Qed.

(** After the loop no (non-empty) marker is left. *)
Lemma strip_params_clean ms u m :
  (∀ m', m' ∈ ms → m' ≠ []) → m ∈ ms → str_find (strip_params ms u) m = None.
Proof.
  revert u. induction ms as [|m0 ms IH]; intros u Hne Hm; simpl.
  - by apply elem_of_nil in Hm.
  - apply elem_of_cons in Hm as [->|Hm].
    + apply (str_find_None_prefix _ (strip_param u m0)).
      * apply strip_params_prefix.
      * apply strip_param_clean, Hne. left.
    + apply IH; [|done]. intros m' Hm'. apply Hne. by right.
Qed.

(** The loop either changes nothing or cuts at the first occurrence of one
    of the markers in the original string. *)
Lemma strip_params_cut ms url u :
  u `prefix_of` url →
  strip_params ms u = u ∨
  ∃ m, m ∈ ms ∧ str_find url m = Some (length (strip_params ms u)).
Proof.
  revert u. induction ms as [|m ms IH]; intros u Hpre; simpl; [by left|].
  assert (strip_param u m `prefix_of` url) as Hpre'.
  { etrans; [apply strip_param_prefix|done]. }
  destruct (IH _ Hpre') as [Heq|(m' & Hm' & Hf)].
  - rewrite Heq. destruct (str_find u m) as [i|] eqn:Hf.
    + right. exists m. split; [left|].
      rewrite (strip_param_present _ _ i) by done.
      rewrite length_take.
      pose proof (proj1 (str_find_Some _ _ _) Hf) as [[Hi _] _].
      replace (i `min` length u) with i by lia.
      by apply (str_find_prefix u).
    + left. apply strip_param_absent. by apply str_in_false.
  - right. exists m'. split; [by right|done].
Qed.

Lemma STRIP_PARAMETERS_nonempty m : m ∈ STRIP_PARAMETERS → m ≠ [].
Proof.
  unfold STRIP_PARAMETERS. rewrite !elem_of_cons, elem_of_nil.
  intros [->|[->|[->|[->|[]]]]]; done.
Qed.

(** No configured marker is left in a normalised URL. *)
Lemma normalized_url_clean url m :
  m ∈ STRIP_PARAMETERS → str_in m (normalized_url url) = false.
Proof.
  intros Hm. apply str_in_false.
  apply strip_params_clean; [apply STRIP_PARAMETERS_nonempty|done].
Qed.

Lemma normalized_url_prefix url : normalized_url url `prefix_of` url.
Proof. apply strip_params_prefix. Qed.

(** The first character of a marker occurs in no marker after its first
    character: two occurrences of markers never overlap. *)
Lemma STRIP_PARAMETERS_no_overlap m m' k c :
  m ∈ STRIP_PARAMETERS → m' ∈ STRIP_PARAMETERS →
  head m = Some c → m' !! S k ≠ Some c.
Proof.
  unfold STRIP_PARAMETERS. rewrite !elem_of_cons, !elem_of_nil.
  intros [->|[->|[->|[->|[]]]]] [->|[->|[->|[->|[]]]]] [= <-];
    do 4 (destruct k as [|k]; [done|]); done.
Qed.

(** C6: a URL that contains none of the configured markers is returned
    unchanged by the full pass over [STRIP_PARAMETERS]; no exception
    escapes, the result is a plain string. *)
Theorem normalized_url_without_marker (url : str) :
  (∀ m, m ∈ STRIP_PARAMETERS → str_in m url = false) →
  normalized_url url = url.
Proof. apply strip_params_absent. Qed.

Lemma normalized_url_without_marker_witness :
  normalized_url (lit "https://b.com/y") = lit "https://b.com/y".
Proof.
  apply normalized_url_without_marker.
  unfold STRIP_PARAMETERS. intros m.
  rewrite !elem_of_cons, elem_of_nil.
  intros [->|[->|[->|[->|[]]]]]; vm_compute; reflexivity.
Defined.

(** C9: normalisation is idempotent, because one full pass leaves no
    configured marker in its result. *)
Theorem normalized_url_idempotent (url : str) :
  normalized_url (normalized_url url) = normalized_url url ∧
  Forall (λ m, str_in m (normalized_url url) = false) STRIP_PARAMETERS.
Proof.
  split.
  - apply strip_params_absent. intros m. apply normalized_url_clean.
  - apply Forall_forall. intros m. apply normalized_url_clean.
Qed.

(** C3, as the spec has it, fails where a marker opens the URL: the
    result is then the empty string. *)
Lemma normalized_url_can_be_empty :
  lit "?utm" ∈ STRIP_PARAMETERS ∧
  str_in (lit "?utm") (lit "?utm_source=feed") = true ∧
  normalized_url (lit "?utm_source=feed") = [].
Proof. split; [left|split; vm_compute; reflexivity]. Qed.

(** C3, amended: a URL that contains a configured marker is cut to a strict
    (possibly empty) prefix that ends exactly before the first occurrence of
    one of the markers, the one that occurs earliest in the URL. *)
Theorem normalized_url_cuts_at_first_marker (url : str) :
  (∃ m, m ∈ STRIP_PARAMETERS ∧ str_in m url = true) →
  ∃ m rest,
    m ∈ STRIP_PARAMETERS ∧
    url = normalized_url url ++ m ++ rest ∧
    str_find url m = Some (length (normalized_url url)) ∧
    length (normalized_url url) < length url ∧
    ∀ m' i, m' ∈ STRIP_PARAMETERS → str_find url m' = Some i →
            length (normalized_url url) ≤ i.
Proof.
  intros (m0 & Hm0 & Hin0).
  pose proof (normalized_url_prefix url) as Hpre.
  destruct (strip_params_cut STRIP_PARAMETERS url url) as [Heq|(m & Hm & Hf)];
    [done| |].
  { pose proof (normalized_url_clean url m0 Hm0) as Hclean.
    unfold normalized_url in Hclean. rewrite Heq in Hclean. congruence. }
  fold (normalized_url url) in Hf.
  set (n := normalized_url url) in *.
  pose proof (proj1 (str_find_Some _ _ _) Hf) as [Hocc _].
  pose proof (proj1 (occurs_at_split _ _ _) Hocc) as (rest & Hsplit & Hle).
  assert (take (length n) url = n) as Htake.
  { destruct Hpre as [k Hk]. rewrite Hk. by rewrite take_app_length. }
  rewrite Htake in Hsplit.
  assert (0 < length m) as Hlen.
  { apply STRIP_PARAMETERS_nonempty in Hm. destruct m; [done|simpl; lia]. }
  exists m, rest. split_and!; [done..| |].
  { pose proof (f_equal length Hsplit) as Hl. rewrite !length_app in Hl. lia. }
  intros m' i Hm' Hf'. apply Nat.nlt_ge. intros Hlt.
  apply str_find_Some in Hf' as [Hocc' _].
  destruct (decide (i + length m' ≤ length n)) as [Hfit|Hover].
  - pose proof (normalized_url_clean url m' Hm') as Hclean.
    apply str_in_false in Hclean. fold n in Hclean.
    rewrite str_find_None in Hclean. apply (Hclean i).
    by apply (occurs_at_within _ _ url).
  - destruct Hocc' as [_ Hp'].
    destruct (lookup_lt_is_Some_2 m' (length n - i)) as [c Hc]; [lia|].
    pose proof (prefix_lookup_Some _ _ _ _ Hc Hp') as Hurl.
    rewrite lookup_drop in Hurl.
    replace (i + (length n - i)) with (length n + 0) in Hurl by lia.
    rewrite Hsplit in Hurl. rewrite lookup_app_r in Hurl by lia.
    replace (length n + 0 - length n) with 0 in Hurl by lia.
    assert (head m = Some c) as Hhead.
    { destruct m; [simpl in Hlen; lia|]. simpl in *. congruence. }
    replace (length n - i) with (S (length n - i - 1)) in Hc by lia.
    by apply (STRIP_PARAMETERS_no_overlap m m' _ c) in Hc.
Qed.

Lemma normalized_url_cuts_at_first_marker_witness :
  ∃ m rest,
    m ∈ STRIP_PARAMETERS ∧
    lit "https://a.com/x?utm=1"
      = normalized_url (lit "https://a.com/x?utm=1") ++ m ++ rest ∧
    str_find (lit "https://a.com/x?utm=1") m
      = Some (length (normalized_url (lit "https://a.com/x?utm=1"))) ∧
    length (normalized_url (lit "https://a.com/x?utm=1"))
      < length (lit "https://a.com/x?utm=1") ∧
    ∀ m' i, m' ∈ STRIP_PARAMETERS →
            str_find (lit "https://a.com/x?utm=1") m' = Some i →
            length (normalized_url (lit "https://a.com/x?utm=1")) ≤ i.
Proof.
  apply (normalized_url_cuts_at_first_marker (lit "https://a.com/x?utm=1")).
  exists (lit "?utm"). split; [left|vm_compute; reflexivity].
Defined.

(** ** The scan *)

Ltac world_eq :=
  repeat match goal with w : World |- _ => destruct w end;
  repeat match goal with p : Pocket |- _ => destruct p end;
  cbv beta iota delta
    [add_output set_stdin add_tab set_heap set_PocketInstance add_sent
     bulk_append stdin stdout tabs heap PocketInstance remote_list
     remote_request_token remote_access_token remote_response remote_sent
     consumer_key access_token bulk_query];
  rewrite ?app_nil_r, <- ?(assoc_L (++)); cbn [app]; try reflexivity.

(** Equal lists up to the bracketing of [++]. *)
Ltac list_assoc :=
  rewrite <- ?(assoc_L (++)); cbn [app];
  rewrite <- ?(assoc_L (++)); cbn [app]; reflexivity.

Lemma add_output_nil w : add_output [] w = w.
Proof. world_eq. Qed.

Lemma add_output_add_output o1 o2 w :
  add_output o2 (add_output o1 w) = add_output (o1 ++ o2) w.
Proof. world_eq. Qed.

Lemma set_heap_heap w : set_heap (heap w) w = w.
Proof. world_eq. Qed.

Lemma heap_set_heap h w : heap (set_heap h w) = h.
Proof. done. Qed.

Lemma set_heap_set_heap h1 h2 w : set_heap h2 (set_heap h1 w) = set_heap h2 w.
Proof. world_eq. Qed.

Lemma add_output_set_heap o h w :
  add_output o (set_heap h w) = set_heap h (add_output o w).
Proof. world_eq. Qed.

Lemma bulk_append_nil p : bulk_append [] p = p.
Proof. world_eq. Qed.

Lemma bulk_append_append q1 q2 p :
  bulk_append q2 (bulk_append q1 p) = bulk_append (q1 ++ q2) p.
Proof. world_eq. Qed.

Lemma alter_bulk_append_nil g (h : list Pocket) : alter (bulk_append []) g h = h.
Proof. apply list_alter_id. intros p. apply bulk_append_nil. Qed.

Lemma alter_bulk_append_append q1 q2 g (h : list Pocket) :
  alter (bulk_append q2) g (alter (bulk_append q1) g h)
  = alter (bulk_append (q1 ++ q2)) g h.
Proof.
  rewrite list_alter_alter_eq. apply list_alter_ext; [|done].
  intros p _. apply bulk_append_append.
Qed.

(** Visiting an item whose normalised URL is in the cache, with
    [PocketInstance] bound: the report, and the deletion queued on the
    object the global name refers to. *)
Lemma scan_item_duplicate item c w g :
  normalized_url (given_url item) ∈ c →
  PocketInstance w = Some g →
  scan_item item c w
  = (inr c,
     set_heap (alter (bulk_append [action_delete (item_id item)]) g (heap w))
       (add_output (duplicate_report item) w)).
Proof.
  intros Hin Hg. unfold scan_item. rewrite bool_decide_eq_true_2 by done.
  unfold mbind, M_bind, print, load_PocketInstance, Pocket_delete; simpl.
  rewrite Hg. reflexivity.
Qed.

(** The same visit when the name [PocketInstance] is not bound. *)
Lemma scan_item_duplicate_unbound item c w :
  normalized_url (given_url item) ∈ c →
  PocketInstance w = None →
  scan_item item c w
  = (inl (NameError "PocketInstance"), add_output (duplicate_report item) w).
Proof.
  intros Hin Hg. unfold scan_item. rewrite bool_decide_eq_true_2 by done.
  unfold mbind, M_bind, print, load_PocketInstance; simpl.
  rewrite Hg. reflexivity.
Qed.

(** Visiting an item whose normalised URL is not in the cache. *)
Lemma scan_item_fresh item c w :
  normalized_url (given_url item) ∉ c →
  scan_item item c w
  = (inr (c ++ [normalized_url (given_url item)]),
     add_output (tracked_report item) w).
Proof.
  intros Hin. unfold scan_item, tracked_report.
  rewrite bool_decide_eq_false_2 by done.
  unfold mbind, M_bind, print, mret, M_ret; simpl.
  case_bool_decide; [done|]. by rewrite add_output_nil.
Qed.

(** The scan of a list is the scan of its first part, continued. *)
Lemma scan_items_app pre post c w :
  scan_items (pre ++ post) c w
  = match scan_items pre c w with
    | (inr c1, w1) => scan_items post c1 w1
    | (inl e, w1) => (inl e, w1)
    end.
Proof.
  revert c w. induction pre as [|r pre IH]; intros c w; simpl; [done|].
  unfold mbind, M_bind. destruct (scan_item r c w) as [[e|c1] w1]; [done|].
  apply IH.
Qed.

(** With [PocketInstance] bound the scan runs to its end. *)
Lemma scan_items_bound items c w g :
  PocketInstance w = Some g →
  scan_items items c w
  = (inr (cache_after c items),
     set_heap (alter (bulk_append (deletions (flagged c items))) g (heap w))
       (add_output (reports c items) w)).
Proof.
  revert c w. induction items as [|r items IH]; intros c w Hg.
  - cbn [scan_items cache_after flagged reports deletions fmap list_fmap].
    rewrite alter_bulk_append_nil, add_output_nil, set_heap_heap. done.
  - cbn [scan_items cache_after flagged reports].
    unfold mbind, M_bind. case_bool_decide as Hin.
    + rewrite (scan_item_duplicate _ _ _ g) by done.
      rewrite IH by done.
      rewrite heap_set_heap, add_output_set_heap, set_heap_set_heap.
      rewrite alter_bulk_append_append, add_output_add_output. done.
    + rewrite scan_item_fresh by done.
      rewrite IH by done.
      rewrite add_output_add_output. done.
Qed.

Lemma seen_before_0 c r0 items r :
  seen_before c (r0 :: items) 0 r ↔ normalized_url (given_url r) ∈ c.
Proof.
  unfold seen_before. split; [|by left].
  intros [H|(j & rj & Hj & _)]; [done|lia].
Qed.

Lemma seen_before_S c r0 items i r :
  seen_before c (r0 :: items) (S i) r
  ↔ seen_before (c ++ [normalized_url (given_url r0)]) items i r.
Proof.
  unfold seen_before. rewrite elem_of_app, list_elem_of_singleton. split.
  - intros [H|(j & rj & Hj & Hl & Heq)]; [by left; left|].
    destruct j as [|j]; simpl in Hl.
    + injection Hl as ->. left. by right.
    + right. exists j, rj. split_and!; [lia|done..].
  - intros [[H|H]|(j & rj & Hj & Hl & Heq)]; [by left| |].
    + right. exists 0, r0. split_and!; [lia|done..].
    + right. exists (S j), rj. split_and!; [lia|done..].
Qed.

Lemma seen_before_cache c a items i r :
  a ∈ c → seen_before (c ++ [a]) items i r ↔ seen_before c items i r.
Proof.
  intros Ha. unfold seen_before. rewrite elem_of_app, list_elem_of_singleton.
  split; [|tauto]. intros [[H|H]|H]; [by left|left; congruence|by right].
Qed.

(** The flagged items are those whose normalised URL was seen before. *)
Lemma elem_of_flagged c items r :
  r ∈ flagged c items ↔ ∃ i, items !! i = Some r ∧ seen_before c items i r.
Proof.
  revert c. induction items as [|r0 items IH]; intros c.
  - cbn [flagged]. rewrite elem_of_nil. split; [done|]. by intros (i & Hl & _).
  - cbn [flagged]. case_bool_decide as Hin.
    + rewrite elem_of_cons, IH. split.
      * intros [->|(i & Hl & Hs)].
        -- exists 0. split; [done|]. by apply seen_before_0.
        -- exists (S i). split; [done|].
           apply seen_before_S. by apply seen_before_cache.
      * intros ([|i] & Hl & Hs); simpl in Hl.
        -- left. congruence.
        -- right. exists i. split; [done|].
           apply seen_before_S in Hs. by apply seen_before_cache in Hs.
    + rewrite IH. split.
      * intros (i & Hl & Hs). exists (S i). split; [done|].
        by apply seen_before_S.
      * intros ([|i] & Hl & Hs); simpl in Hl.
        -- injection Hl as ->. by apply seen_before_0 in Hs.
        -- exists i. split; [done|]. by apply seen_before_S in Hs.
Qed.

Lemma elem_of_deletions id items :
  action_delete id ∈ deletions items ↔ ∃ r, r ∈ items ∧ item_id r = id.
Proof.
  unfold deletions. rewrite list_elem_of_fmap. split.
  - intros (r & [= ->] & Hr). eauto.
  - intros (r & Hr & <-). eauto.
Qed.

(** The console lines of a scan: a duplicate line for each flagged item, and
    tracked-URL lines. *)
Lemma elem_of_reports_duplicate c items u :
  Printed (lit "Duplicate article found: " ++ u) ∈ reports c items
  ↔ ∃ r, r ∈ flagged c items ∧ given_url r = u.
Proof.
  revert c. induction items as [|r0 items IH]; intros c.
  - cbn [reports flagged]. rewrite elem_of_nil. split; [done|].
    intros (r & Hr & _). by apply elem_of_nil in Hr.
  - cbn [reports flagged]. case_bool_decide as Hin.
    + unfold duplicate_report.
      rewrite elem_of_app, list_elem_of_singleton, IH. split.
      * intros [[= Heq]|(r & Hr & Hu)].
        -- exists r0. split; [left|done].
        -- exists r. split; [by right|done].
      * intros (r & Hr & Hu). apply elem_of_cons in Hr as [->|Hr].
        -- left. by rewrite Hu.
        -- right. eauto.
    + rewrite elem_of_app, IH. split; [|by right].
      intros [Ht|H]; [|done]. unfold tracked_report in Ht.
      case_bool_decide.
      * apply list_elem_of_singleton in Ht. discriminate Ht.
      * by apply elem_of_nil in Ht.
Qed.

(** The cache after a scan: what it held, then the new normalised URLs, each
    at its first occurrence. *)
Lemma cache_after_first_occurrences c items :
  cache_after c items
  = c ++ filter (λ x, x ∉ c)
           (first_occurrences ((λ r, normalized_url (given_url r)) <$> items)).
Proof.
  revert c. induction items as [|r items IH]; intros c.
  - cbn. by rewrite app_nil_r.
  - cbn [cache_after fmap list_fmap first_occurrences]. case_bool_decide as Hin.
    + rewrite IH. f_equal. rewrite filter_cons_False by tauto.
      rewrite list_filter_filter. apply list_filter_iff.
      intros x. split; [|tauto]. intros Hx. split; [done|]. congruence.
    + rewrite IH. rewrite filter_cons_True by done.
      rewrite <- (assoc_L (++)). f_equal. cbn [app]. f_equal.
      rewrite list_filter_filter. apply list_filter_iff.
      intros x. rewrite elem_of_app, list_elem_of_singleton. tauto.
Qed.

Lemma cache_after_NoDup c items : NoDup c → NoDup (cache_after c items).
Proof.
  revert c. induction items as [|r items IH]; intros c Hc; cbn [cache_after].
  - done.
  - case_bool_decide as Hin; apply IH; [done|].
    apply NoDup_app. split_and!; [done| |apply NoDup_singleton].
    intros x Hx ->%list_elem_of_singleton. done.
Qed.

Lemma filter_not_in_nil (l : list str) : filter (λ x, x ∉ []) l = l.
Proof.
  induction l as [|x l IH]; [done|].
  rewrite filter_cons_True by apply not_elem_of_nil. by rewrite IH.
Qed.

(** ** The functions of the script *)

Lemma alter_insert (f : Pocket → Pocket) (h : list Pocket) g p :
  h !! g = Some p → alter f g h = <[g := f p]> h.
Proof.
  intros Hl. rewrite list_insert_alter. apply list_alter_ext; [|done].
  intros x Hx. congruence.
Qed.

(** [queue_dedupe_actions] with [PocketInstance] bound to [g], whatever
    object is passed as [pocket_instance]. *)
Lemma queue_dedupe_actions_bound pocket_instance w g :
  PocketInstance w = Some g →
  queue_dedupe_actions pocket_instance w
  = (inr tt,
     set_heap
       (alter (bulk_append (deletions (flagged [] (remote_list w)))) g (heap w))
       (add_output
          (Printed (lit "Found " ++ str_of_nat (length (remote_list w))
                    ++ lit " articles.")
           :: reports [] (remote_list w)) w)).
Proof.
  intros Hg. unfold queue_dedupe_actions, mbind, M_bind, Pocket_get, print.
  rewrite (scan_items_bound _ _ _ g) by done.
  rewrite add_output_add_output. done.
Qed.

Lemma get_pocket_instance_run w key enter rest :
  stdin w = key :: enter :: rest →
  get_pocket_instance None (lit "https://google.com/") w
  = (inr (length (heap w)), authenticated key rest w).
Proof.
  intros Hin. destruct w. simpl in Hin. subst.
  unfold get_pocket_instance, authenticate, authenticated, mbind, M_bind,
    mret, M_ret, input, print, webbrowser_open_new_tab,
    Pocket_get_request_token, Pocket_get_access_token, Pocket_new,
    authentication_dialogue.
  world_eq.
Qed.

(** The run of the script up to the confirmation prompt. *)
Lemma main_unfold w key enter rest :
  stdin w = key :: enter :: rest →
  main w
  = (line ← input confirmation_prompt;
     let user_input := strip line in
     (if bool_decide (user_input = lit "y") then
        session ← load_PocketInstance;
        response ← Pocket_commit session;
        print (lit "Request sent. Response: " ++ response)
      else
        print (lit "Received input '" ++ user_input
               ++ lit "'. Modify request has not been sent."));;
     print (lit "The script has finished running.")) (scanned key rest w).
Proof.
  intros Hin. unfold main. unfold mbind at 1 2 3 4. unfold M_bind at 1 2 3 4.
  rewrite (get_pocket_instance_run _ key enter rest) by done.
  unfold store_PocketInstance, load_PocketInstance.
  cbn [PocketInstance set_PocketInstance].
  rewrite (queue_dedupe_actions_bound _ _ (length (heap w))) by done.
  unfold scanned.
  cbn [heap remote_list add_output add_tab set_stdin set_PocketInstance
         authenticated set_heap].
  rewrite alter_app_r_alt, Nat.sub_diag by done. reflexivity.
Qed.

Lemma stdin_scanned key rest w : stdin (scanned key rest w) = rest.
Proof. reflexivity. Qed.

Lemma PocketInstance_asked key rest rest' o w :
  PocketInstance (set_stdin rest' (add_output o (scanned key rest w)))
  = Some (length (heap w)).
Proof. reflexivity. Qed.

Lemma heap_asked key rest rest' o w :
  heap (set_stdin rest' (add_output o (scanned key rest w)))
  = heap w ++ [mkPocket (strip key) (remote_access_token w)
                 (deletions (flagged [] (remote_list w)))].
Proof. reflexivity. Qed.

Lemma remote_response_asked key rest rest' o w :
  remote_response (set_stdin rest' (add_output o (scanned key rest w)))
  = remote_response w.
Proof. reflexivity. Qed.

(** The end of the input at the confirmation prompt. *)
Lemma main_eof w key enter :
  stdin w = [key; enter] →
  main w = (inl EOFError,
            add_output [Prompted confirmation_prompt] (scanned key [] w)).
Proof.
  intros Hin. rewrite (main_unfold _ key enter []) by done. reflexivity.
Qed.

(** The run of the script when the answer strips to [y]. *)
Lemma main_confirmed w key enter answer rest :
  stdin w = key :: enter :: answer :: rest →
  strip answer = lit "y" →
  main w
  = (inr tt,
     add_output
       [ Printed (lit "Request sent. Response: " ++ remote_response w);
         Printed (lit "The script has finished running.") ]
       (add_sent (deletions (flagged [] (remote_list w)))
          (set_heap
             (heap w ++ [mkPocket (strip key) (remote_access_token w) []])
             (answered key rest w)))).
Proof.
  intros Hin Hy. rewrite (main_unfold _ key enter (answer :: rest)) by done.
  unfold mbind, M_bind, input. rewrite stdin_scanned.
  rewrite bool_decide_eq_true_2 by done.
  unfold load_PocketInstance, Pocket_commit, print.
  rewrite PocketInstance_asked. cbv beta iota.
  rewrite heap_asked, remote_response_asked.
  rewrite list_lookup_middle by done.
  rewrite alter_app_r_alt, Nat.sub_diag by done.
  unfold answered, scanned, authenticated. world_eq.
Qed.

(** The run of the script on any other answer. *)
Lemma main_declined w key enter answer rest :
  stdin w = key :: enter :: answer :: rest →
  strip answer ≠ lit "y" →
  main w
  = (inr tt,
     add_output
       [ Printed (lit "Received input '" ++ strip answer
                  ++ lit "'. Modify request has not been sent.");
         Printed (lit "The script has finished running.") ]
       (answered key rest w)).
Proof.
  intros Hin Hy. rewrite (main_unfold _ key enter (answer :: rest)) by done.
  unfold mbind, M_bind, input. rewrite stdin_scanned.
  rewrite bool_decide_eq_false_2 by done.
  unfold print, answered, scanned, authenticated. world_eq.
Qed.

(** ** The claims about the scan *)

Lemma elem_of_flagged_nil items r :
  r ∈ flagged [] items ↔ later_duplicate items r.
Proof.
  rewrite elem_of_flagged. unfold later_duplicate, seen_before. split.
  - intros (i & Hl & [H|(j & rj & Hj & Hlj & Heq)]).
    + by apply elem_of_nil in H.
    + exists i, j, rj. done.
  - intros (i & j & rj & Hj & Hl & Hlj & Heq). exists i. split; [done|].
    right. exists j, rj. done.
Qed.

(** The state in which the loop visits the item after [pre]. *)
Lemma scan_items_visit w g pre r post :
  PocketInstance w = Some g →
  ∃ c1 w1,
    scan_items pre [] w = (inr c1, w1) ∧
    scan_items (pre ++ r :: post) [] w
    = (c ← scan_item r c1; scan_items post c) w1 ∧
    PocketInstance w1 = Some g ∧
    c1 = cache_after [] pre.
Proof.
  intros Hg. eexists _, _. split; [by apply (scan_items_bound _ _ _ g)|].
  split_and!; [|done..].
  rewrite scan_items_app, (scan_items_bound _ _ _ g) by done. done.
Qed.

(** C1: with [PocketInstance] naming a live client object, the loop runs to
    its end; the ids whose deletion it queues, and the URLs it reports as
    duplicates, are exactly those of the records that stand after a record
    with the same normalised URL; and a record is flagged when it is visited
    iff its normalised URL is in the cache at that moment. *)
Theorem duplicates_are_later_occurrences
    (w : World) (g : ref) (p : Pocket) (items : list Item) :
  PocketInstance w = Some g →
  heap w !! g = Some p →
  ∃ cache q out,
    scan_items items [] w
    = (inr cache,
       set_heap (<[g := bulk_append q p]> (heap w)) (add_output out w)) ∧
    (∀ id, action_delete id ∈ q
           ↔ ∃ r, later_duplicate items r ∧ item_id r = id) ∧
    (∀ a, a ∈ q → ∃ id, a = action_delete id) ∧
    (∀ u, Printed (lit "Duplicate article found: " ++ u) ∈ out
          ↔ ∃ r, later_duplicate items r ∧ given_url r = u) ∧
    (∀ pre r post, items = pre ++ r :: post →
       ∃ c1 w1,
         scan_items pre [] w = (inr c1, w1) ∧
         scan_items items [] w = (c ← scan_item r c1; scan_items post c) w1 ∧
         (normalized_url (given_url r) ∈ c1 →
            scan_item r c1 w1
            = (inr c1,
               set_heap
                 (alter (bulk_append [action_delete (item_id r)]) g (heap w1))
                 (add_output
                    [Printed (lit "Duplicate article found: " ++ given_url r)]
                    w1))) ∧
         (normalized_url (given_url r) ∉ c1 →
            ∃ o, scan_item r c1 w1
                 = (inr (c1 ++ [normalized_url (given_url r)]), add_output o w1)
                 ∧ ∀ u, Printed (lit "Duplicate article found: " ++ u) ∉ o)).
Proof.
  intros Hg Hp.
  exists (cache_after [] items), (deletions (flagged [] items)),
    (reports [] items).
  split_and!.
  - rewrite (scan_items_bound _ _ _ g) by done.
    by rewrite (alter_insert _ _ _ p).
  - intros id. rewrite elem_of_deletions.
    by setoid_rewrite elem_of_flagged_nil.
  - intros a (r & -> & _)%list_elem_of_fmap. eauto.
  - intros u. rewrite elem_of_reports_duplicate.
    by setoid_rewrite elem_of_flagged_nil.
  - intros pre r post ->.
    destruct (scan_items_visit w g pre r post Hg) as (c1 & w1 & H1 & H2 & Hg1 & _).
    exists c1, w1. split_and!; [done..| |].
    + intros Hin. by apply scan_item_duplicate.
    + intros Hin. exists (tracked_report r). split; [by apply scan_item_fresh|].
      intros u Hu. unfold tracked_report in Hu. case_bool_decide.
      * apply list_elem_of_singleton in Hu. discriminate Hu.
      * by apply elem_of_nil in Hu.
Qed.

Lemma duplicates_are_later_occurrences_witness :
  ∃ cache q out,
    scan_items example_items [] (example_world [] [example_session] (Some 0))
    = (inr cache,
       set_heap (<[0 := bulk_append q example_session]> [example_session])
         (add_output out (example_world [] [example_session] (Some 0)))) ∧
    (∀ id, action_delete id ∈ q
           ↔ ∃ r, later_duplicate example_items r ∧ item_id r = id).
Proof.
  destruct (duplicates_are_later_occurrences
              (example_world [] [example_session] (Some 0)) 0 example_session
              example_items)
    as (cache & q & out & H1 & H2 & _); [reflexivity|reflexivity|].
  exists cache, q, out. split; [exact H1|exact H2].
Defined.

(** C5: the earliest record of a group (no record before it has its
    normalised URL) is visited without a duplicate report and without any
    deletion being queued; when the ids of the list are distinct, its id is
    not among the deletions the whole scan queues. *)
Theorem earliest_of_group_is_kept
    (w : World) (g : ref) (p : Pocket) (pre : list Item) (r : Item)
    (post : list Item) :
  PocketInstance w = Some g →
  heap w !! g = Some p →
  (∀ r', r' ∈ pre →
         normalized_url (given_url r') ≠ normalized_url (given_url r)) →
  ∃ c1 w1 c2 w2 cache q w',
    scan_items pre [] w = (inr c1, w1) ∧
    scan_item r c1 w1 = (inr c2, w2) ∧
    heap w2 = heap w1 ∧
    (∀ u, Printed (lit "Duplicate article found: " ++ u) ∈ stdout w2 →
          Printed (lit "Duplicate article found: " ++ u) ∈ stdout w1) ∧
    scan_items (pre ++ r :: post) [] w = scan_items post c2 w2 ∧
    scan_items (pre ++ r :: post) [] w = (inr cache, w') ∧
    heap w' !! g = Some (bulk_append q p) ∧
    (NoDup (item_id <$> pre ++ r :: post) → action_delete (item_id r) ∉ q).
Proof.
  intros Hg Hp Hfirst.
  destruct (scan_items_visit w g pre r post Hg)
    as (c1 & w1 & H1 & H2 & Hg1 & Hc1).
  assert (normalized_url (given_url r) ∉ c1) as Hfresh.
  { rewrite Hc1, cache_after_first_occurrences, app_nil_l, filter_not_in_nil.
    intros Hin. clear -Hin Hfirst.
    induction pre as [|r0 pre IH]; [by apply elem_of_nil in Hin|].
    cbn [fmap list_fmap first_occurrences] in Hin.
    apply elem_of_cons in Hin as [Heq|Hin].
    - apply (Hfirst r0); [left|done].
    - apply list_elem_of_filter in Hin as [_ Hin]. apply IH; [|done].
      intros r' Hr'. apply Hfirst. by right. }
  pose proof (scan_item_fresh r c1 w1 Hfresh) as Hvisit.
  exists c1, w1, (c1 ++ [normalized_url (given_url r)]),
    (add_output (tracked_report r) w1),
    (cache_after [] (pre ++ r :: post)),
    (deletions (flagged [] (pre ++ r :: post))).
  eexists. split_and!; [done..| | | | |].
  - intros u. cbn [stdout add_output]. rewrite elem_of_app.
    intros [H|H]; [done|]. unfold tracked_report in H. case_bool_decide.
    + apply list_elem_of_singleton in H. discriminate H.
    + by apply elem_of_nil in H.
  - rewrite H2. unfold mbind, M_bind. by rewrite Hvisit.
  - by apply (scan_items_bound _ _ _ g).
  - cbn [heap set_heap]. by rewrite list_lookup_alter_eq, Hp.
  - intros Hnodup Hin.
    apply elem_of_deletions in Hin as (r' & Hr' & Hid).
    apply elem_of_flagged_nil in Hr' as (i & j & rj & Hj & Hi & Hlj & Heq).
    assert ((pre ++ r :: post) !! length pre = Some r) as Hr.
    { by apply list_lookup_middle. }
    assert (i = length pre) as ->.
    { apply (NoDup_lookup _ _ _ (item_id r) Hnodup).
      - by rewrite list_lookup_fmap, Hi, <- Hid.
      - by rewrite list_lookup_fmap, Hr. }
    assert (r' = r) as -> by congruence.
    rewrite lookup_app_l in Hlj by done.
    apply (Hfirst rj); [|done]. by apply list_elem_of_lookup_2 in Hlj.
Qed.

Lemma earliest_of_group_is_kept_witness :
  ∃ c1 w1 c2 w2,
    scan_items [mkItem (lit "1") (lit "https://a.com/x?utm=1");
                mkItem (lit "2") (lit "https://a.com/x")] []
      (example_world [] [example_session] (Some 0)) = (inr c1, w1) ∧
    scan_item (mkItem (lit "3") (lit "https://b.com/y")) c1 w1 = (inr c2, w2) ∧
    heap w2 = heap w1.
Proof.
  destruct (earliest_of_group_is_kept
              (example_world [] [example_session] (Some 0)) 0 example_session
              [mkItem (lit "1") (lit "https://a.com/x?utm=1");
               mkItem (lit "2") (lit "https://a.com/x")]
              (mkItem (lit "3") (lit "https://b.com/y")) [])
    as (c1 & w1 & c2 & w2 & _ & _ & _ & H1 & H2 & H3 & _);
    [reflexivity|reflexivity| |].
  - intros r'. rewrite !elem_of_cons, elem_of_nil.
    intros [->|[->|[]]]; vm_compute; discriminate.
  - exists c1, w1, c2, w2. split; [exact H1|split; [exact H2|exact H3]].
Defined.

(** C7: a record whose normalised URL differs from its URL and is not in
    the cache yields the tracked-URL line and nothing else: no exception, the
    client objects (and with them every action queue) and the service are
    as before, and the normalised URL is appended to the cache. *)
Theorem tracked_first_occurrence_is_only_reported
    (item : Item) (article_cache : list str) (w : World) :
  normalized_url (given_url item) ≠ given_url item →
  normalized_url (given_url item) ∉ article_cache →
  scan_item item article_cache w
  = (inr (article_cache ++ [normalized_url (given_url item)]),
     add_output
       [Printed (lit "Article with trackers found: " ++ given_url item)] w) ∧
  heap (scan_item item article_cache w).2 = heap w ∧
  remote_sent (scan_item item article_cache w).2 = remote_sent w.
Proof.
  intros Hdiff Hfresh. rewrite scan_item_fresh by done.
  unfold tracked_report. rewrite bool_decide_eq_true_2 by done. done.
Qed.

Lemma tracked_first_occurrence_is_only_reported_witness :
  scan_item (mkItem (lit "1") (lit "https://a.com/x?utm=1")) []
    (example_world [] [example_session] None)
  = (inr [lit "https://a.com/x"],
     add_output
       [Printed (lit "Article with trackers found: https://a.com/x?utm=1")]
       (example_world [] [example_session] None)).
Proof.
  refine (proj1 (tracked_first_occurrence_is_only_reported
                   (mkItem (lit "1") (lit "https://a.com/x?utm=1")) []
                   (example_world [] [example_session] None) _ _)).
  - vm_compute. discriminate.
  - apply not_elem_of_nil.
Defined.

(** The loop stops early only for want of the name [PocketInstance];
    otherwise its cache is [cache_after], and the name is bound as before. *)
Lemma scan_items_cache items c w :
  match scan_items items c w with
  | (inr c', w') =>
      c' = cache_after c items ∧ PocketInstance w' = PocketInstance w
  | (inl e, _) => e = NameError "PocketInstance" ∧ PocketInstance w = None
  end.
Proof.
  revert c w. induction items as [|r items IH]; intros c w.
  - done.
  - cbn [scan_items cache_after]. unfold mbind, M_bind.
    case_bool_decide as Hin.
    + destruct (PocketInstance w) as [g|] eqn:Hg.
      * rewrite (scan_item_duplicate _ _ _ g) by done.
        specialize (IH c (set_heap
          (alter (bulk_append [action_delete (item_id r)]) g (heap w))
          (add_output (duplicate_report r) w))).
        destruct (scan_items items c _) as [[e|c'] w'].
        -- destruct IH as [_ IH]. cbn [PocketInstance set_heap add_output] in IH.
           congruence.
        -- destruct IH as [-> IH]. split; [done|]. rewrite IH. exact Hg.
      * by rewrite scan_item_duplicate_unbound.
    + rewrite scan_item_fresh by done.
      specialize (IH (c ++ [normalized_url (given_url r)])
                    (add_output (tracked_report r) w)).
      destruct (scan_items items _ _) as [[e|c'] w']; exact IH.
Qed.

(** C10: at every point a scan reaches, the cache holds pairwise-distinct
    normalised URLs, namely those of the records visited so far, each once
    and in the order of their first occurrences; the scan reaches every
    point of the list when [PocketInstance] is bound, and stops before it
    only with the [NameError] of an unbound [PocketInstance]. *)
Theorem cache_is_first_occurrences (w : World) (pre post : list Item) :
  match scan_items pre [] w with
  | (inr c1, w1) =>
      scan_items (pre ++ post) [] w = scan_items post c1 w1 ∧
      NoDup c1 ∧
      c1 = first_occurrences ((λ r, normalized_url (given_url r)) <$> pre)
  | (inl e, w1) =>
      e = NameError "PocketInstance" ∧ PocketInstance w = None ∧
      scan_items (pre ++ post) [] w = (inl e, w1)
  end ∧
  (is_Some (PocketInstance w) → ∃ c1 w1, scan_items pre [] w = (inr c1, w1)).
Proof.
  split.
  - pose proof (scan_items_cache pre [] w) as Hc.
    pose proof (scan_items_app pre post [] w) as Happ.
    destruct (scan_items pre [] w) as [[e|c1] w1].
    + destruct Hc as [-> Hg]. done.
    + destruct Hc as [-> _]. split_and!; [done| |].
      * apply cache_after_NoDup, NoDup_nil_2.
      * by rewrite cache_after_first_occurrences, app_nil_l, filter_not_in_nil.
  - intros [g Hg]. eexists _, _. by apply (scan_items_bound _ _ _ g).
Qed.

Lemma cache_is_first_occurrences_witness :
  ∃ c1 w1,
    scan_items example_items [] (example_world [] [example_session] (Some 0))
    = (inr c1, w1) ∧
    c1 = [lit "https://a.com/x"; lit "https://b.com/y"].
Proof.
  pose proof (cache_is_first_occurrences
                (example_world [] [example_session] (Some 0)) example_items [])
    as [H1 H2].
  destruct H2 as (c1 & w1 & H2); [by eexists|].
  rewrite H2 in H1. destruct H1 as (_ & _ & H1).
  exists c1, w1. split; [exact H2|]. rewrite H1. vm_compute. reflexivity.
Defined.

(** ** The claims about the session and the confirmation *)

(** C2: the deletions go to the object that the module-level name
    [PocketInstance] refers to, not to the object passed as
    [pocket_instance].  Called with the first of two client objects while
    [PocketInstance] names the second, the function queues the deletion on
    the second; called while [PocketInstance] is not bound (the module
    imported, not run), it raises [NameError] at the first duplicate and
    queues nothing on the object it was given. *)
Theorem deletion_is_queued_on_the_global_name :
  heap (queue_dedupe_actions 0
          (example_world [] [example_session; example_session] (Some 1))).2
  = [ example_session;
      mkPocket (lit "key") (lit "token") [action_delete (lit "2")] ] ∧
  (queue_dedupe_actions 0 (example_world [] [example_session] None)).1
  = inl (NameError "PocketInstance") ∧
  heap (queue_dedupe_actions 0 (example_world [] [example_session] None)).2
  = [example_session].
Proof. split_and!; vm_compute; reflexivity. Qed.

Lemma stdout_answered key rest w :
  stdout (answered key rest w)
  = stdout w
    ++ authentication_dialogue
    ++ Printed (lit "Found " ++ str_of_nat (length (remote_list w))
                ++ lit " articles.")
       :: reports [] (remote_list w)
    ++ [Prompted confirmation_prompt].
Proof.
  unfold answered, scanned, authenticated. world_eq.
Qed.

(** C4, as the spec has it, fails on an answer with white space around the
    [y]: the answer [ y] is not the single character [y], and the batch is
    sent all the same. *)
Lemma padded_answer_commits :
  lit " y" ≠ lit "y" ∧
  remote_sent (example_world [lit "key"; lit ""; lit " y"] [] None) = [] ∧
  (main (example_world [lit "key"; lit ""; lit " y"] [] None)).1 = inr tt ∧
  remote_sent (main (example_world [lit "key"; lit ""; lit " y"] [] None)).2
  = [[action_delete (lit "2")]].
Proof. split_and!; [discriminate|vm_compute; reflexivity..]. Qed.

(** C4, amended: once the key and the acknowledgement have been typed, the
    script ends normally whatever the answer; the batch of queued deletions
    is sent iff the answer with its leading and trailing white space
    stripped is [y]; on every other answer nothing is sent and the stripped
    answer is reported. *)
Theorem commit_iff_answer_strips_to_y
    (w : World) (key enter answer : str) (rest : list str) :
  stdin w = key :: enter :: answer :: rest →
  ∃ w' shown said,
    main w = (inr tt, w') ∧
    stdout w'
    = stdout w ++ shown
      ++ [ Prompted confirmation_prompt; said;
           Printed (lit "The script has finished running.") ] ∧
    ((∃ batch, remote_sent w' = remote_sent w ++ [batch])
     ↔ strip answer = lit "y") ∧
    (strip answer = lit "y" →
       said = Printed (lit "Request sent. Response: " ++ remote_response w) ∧
       ∃ batch,
         remote_sent w' = remote_sent w ++ [batch] ∧
         ∀ id, action_delete id ∈ batch
               ↔ ∃ r, later_duplicate (remote_list w) r ∧ item_id r = id) ∧
    (strip answer ≠ lit "y" →
       said = Printed (lit "Received input '" ++ strip answer
                       ++ lit "'. Modify request has not been sent.") ∧
       remote_sent w' = remote_sent w).
Proof.
  intros Hin.
  set (shown := authentication_dialogue
                ++ Printed (lit "Found " ++ str_of_nat (length (remote_list w))
                            ++ lit " articles.")
                   :: reports [] (remote_list w)).
  destruct (decide (strip answer = lit "y")) as [Hy|Hn].
  - eexists _, shown,
      (Printed (lit "Request sent. Response: " ++ remote_response w)).
    split; [by apply (main_confirmed _ key enter answer rest)|].
    split_and!.
    + cbn [stdout add_output add_sent set_heap]. rewrite stdout_answered.
      unfold shown. list_assoc.
    + split; [done|]. intros _. eexists. reflexivity.
    + intros _. split; [done|]. eexists. split; [reflexivity|].
      intros id. rewrite elem_of_deletions.
      by setoid_rewrite elem_of_flagged_nil.
    + done.
  - eexists _, shown,
      (Printed (lit "Received input '" ++ strip answer
                ++ lit "'. Modify request has not been sent.")).
    split; [by apply (main_declined _ key enter answer rest)|].
    split_and!.
    + cbn [stdout add_output]. rewrite stdout_answered.
      unfold shown. list_assoc.
    + split; [|done]. intros [batch Hb]. exfalso.
      cbn [remote_sent add_output answered set_stdin scanned set_heap
             set_PocketInstance authenticated add_tab] in Hb.
      apply (f_equal length) in Hb. rewrite length_app in Hb.
      cbn [length] in Hb. lia.
    + done.
    + intros _. split; reflexivity.
Qed.

Lemma commit_iff_answer_strips_to_y_witness :
  ∃ w' shown said,
    main (example_world [lit "key"; lit ""; lit "Y"] [] None) = (inr tt, w') ∧
    stdout w'
    = shown
      ++ [ Prompted confirmation_prompt; said;
           Printed (lit "The script has finished running.") ] ∧
    said = Printed (lit "Received input 'Y'. Modify request has not been sent.") ∧
    remote_sent w' = [].
Proof.
  destruct (commit_iff_answer_strips_to_y
              (example_world [lit "key"; lit ""; lit "Y"] [] None)
              (lit "key") (lit "") (lit "Y") [])
    as (w' & shown & said & H1 & H2 & _ & _ & H3); [reflexivity|].
  exists w', shown, said. split; [exact H1|]. split; [exact H2|].
  apply H3. vm_compute. discriminate.
Defined.

(** C8: on the empty list the scan reports [Found 0 articles.], flags
    nothing and queues nothing; in the script the confirmation prompt is
    shown right after that line, no duplicate is reported, and what is sent,
    if anything, is an empty batch. *)
Theorem empty_list_scan (w : World) (pocket_instance : ref) :
  remote_list w = [] →
  queue_dedupe_actions pocket_instance w
  = (inr tt, add_output [Printed (lit "Found 0 articles.")] w) ∧
  ∀ key enter rest, stdin w = key :: enter :: rest →
    ∃ before after,
      stdout (main w).2
      = stdout w ++ before
        ++ [Printed (lit "Found 0 articles."); Prompted confirmation_prompt]
        ++ after ∧
      (∀ u, Printed (lit "Duplicate article found: " ++ u) ∉ before ++ after) ∧
      (remote_sent (main w).2 = remote_sent w ∨
       remote_sent (main w).2 = remote_sent w ++ [[]]).
Proof.
  intros Hempty. split.
  - unfold queue_dedupe_actions, mbind, M_bind, Pocket_get, print.
    rewrite Hempty. reflexivity.
  - intros key enter rest Hin.
    assert (∀ rest', stdout (answered key rest' w)
              = stdout w ++ authentication_dialogue
                ++ [Printed (lit "Found 0 articles.");
                    Prompted confirmation_prompt]) as Hout.
    { intros rest'. rewrite stdout_answered, Hempty. reflexivity. }
    assert (∀ (after : list output) u,
              (∀ v, Printed (lit "Duplicate article found: " ++ v) ∉ after) →
              Printed (lit "Duplicate article found: " ++ u)
                ∉ authentication_dialogue ++ after) as Hnodup.
    { intros after u Hafter. rewrite elem_of_app. intros [H|H].
      - unfold authentication_dialogue in H.
        rewrite !elem_of_cons, elem_of_nil in H.
        destruct H as [H|[H|[H|[]]]]; discriminate H.
      - by apply Hafter in H. }
    destruct rest as [|answer rest].
    + rewrite (main_eof _ key enter) by done.
      exists authentication_dialogue, []. split_and!.
      * change (add_output [Prompted confirmation_prompt] (scanned key [] w))
          with (set_stdin [] (add_output [Prompted confirmation_prompt]
                                (scanned key [] w))).
        fold (answered key [] w). unfold snd. rewrite Hout.
        by rewrite app_nil_r.
      * intros u. apply Hnodup. intros v. apply not_elem_of_nil.
      * by left.
    + destruct (decide (strip answer = lit "y")) as [Hy|Hn].
      * rewrite (main_confirmed _ key enter answer rest) by done.
        exists authentication_dialogue,
          [ Printed (lit "Request sent. Response: " ++ remote_response w);
            Printed (lit "The script has finished running.") ].
        split_and!.
        -- cbn [snd stdout add_output add_sent set_heap]. rewrite Hout.
           list_assoc.
        -- intros u. apply Hnodup. intros v.
           rewrite !elem_of_cons, elem_of_nil. intros [H|[H|[]]]; discriminate H.
        -- right. rewrite Hempty. reflexivity.
      * rewrite (main_declined _ key enter answer rest) by done.
        exists authentication_dialogue,
          [ Printed (lit "Received input '" ++ strip answer
                     ++ lit "'. Modify request has not been sent.");
            Printed (lit "The script has finished running.") ].
        split_and!.
        -- cbn [snd stdout add_output]. rewrite Hout. list_assoc.
        -- intros u. apply Hnodup. intros v.
           rewrite !elem_of_cons, elem_of_nil. intros [H|[H|[]]]; discriminate H.
        -- by left.
Qed.

Lemma empty_list_scan_witness :
  queue_dedupe_actions 0 (empty_account [lit "key"; lit ""; lit "y"])
  = (inr tt,
     add_output [Printed (lit "Found 0 articles.")]
       (empty_account [lit "key"; lit ""; lit "y"])) ∧
  ∃ before after,
    stdout (main (empty_account [lit "key"; lit ""; lit "y"])).2
    = before
      ++ [Printed (lit "Found 0 articles."); Prompted confirmation_prompt]
      ++ after.
Proof.
  destruct (empty_list_scan (empty_account [lit "key"; lit ""; lit "y"]) 0)
    as [H1 H2]; [reflexivity|].
  split; [exact H1|].
  destruct (H2 (lit "key") (lit "") [lit "y"]) as (before & after & H3 & _);
    [reflexivity|].
  exists before, after. exact H3.
Defined.

(** * Further properties of the script *)

(** ** [strip_url] and the normalisation *)

(** X1: when the marker occurs in the URL, [strip_url] returns the part of
    the URL before the first occurrence: the URL is the result, the marker
    and a rest, the marker first occurs where the result ends, and a marker
    that is not the empty string no longer occurs in the result. *)
Theorem strip_url_cuts_at_first_occurrence (url char : str) :
  str_in char url = true →
  ∃ rest,
    url = strip_url url char ++ char ++ rest ∧
    str_find url char = Some (length (strip_url url char)) ∧
    (char ≠ [] → str_in char (strip_url url char) = false).
Proof.
  intros (i & Hf)%str_in_true.
  pose proof (proj1 (str_find_Some _ _ _) Hf) as [Hocc _].
  pose proof (proj1 (occurs_at_split _ _ _) Hocc) as (rest & Hsplit & Hle).
  assert (strip_url url char = take i url) as Hstrip.
  { unfold strip_url, str_index. by rewrite Hf. }
  exists rest. rewrite Hstrip. split_and!.
  - done.
  - rewrite length_take. by replace (i `min` length url) with i by lia.
  - intros Hne. apply str_in_false. by apply str_find_take.
Qed.

Lemma strip_url_cuts_at_first_occurrence_witness :
  ∃ rest,
    lit "https://a.com/x?utm=1"
    = strip_url (lit "https://a.com/x?utm=1") (lit "?utm")
      ++ lit "?utm" ++ rest.
Proof.
  destruct (strip_url_cuts_at_first_occurrence
              (lit "https://a.com/x?utm=1") (lit "?utm"))
    as (rest & H & _); [vm_compute; reflexivity|].
  exists rest. exact H.
Defined.

(** X2: [strip_url] is idempotent for every URL and every marker, the empty
    marker included (which cuts every URL down to the empty string). *)
Theorem strip_url_idempotent (url char : str) :
  strip_url (strip_url url char) char = strip_url url char ∧
  strip_url url [] = [].
Proof.
  split.
  - destruct (str_find url char) as [i|] eqn:Hf.
    + assert (strip_url url char = take i url) as Hstrip.
      { unfold strip_url, str_index. by rewrite Hf. }
      rewrite Hstrip. destruct char as [|c char].
      * assert (i = 0) as ->.
        { apply str_find_Some in Hf as [_ Hmin].
          destruct i as [|i]; [done|]. exfalso. apply (Hmin 0); [lia|].
          apply occurs_at_0, prefix_nil. }
        by destruct url.
      * unfold strip_url at 1, str_index.
        by rewrite (str_find_take url (c :: char) i).
    + assert (strip_url url char = url) as Hstrip.
      { unfold strip_url, str_index. by rewrite Hf. }
      by rewrite !Hstrip.
  - unfold strip_url, str_index. by destruct url.
Qed.

(** The cut of the loop over any list of configured markers: it is at the
    first occurrence of one of them, and no marker of the list occurs
    earlier in the URL. *)
Lemma strip_params_cut_earliest ms url :
  (∀ m, m ∈ ms → m ∈ STRIP_PARAMETERS) →
  (∃ m, m ∈ ms ∧ str_in m url = true) →
  ∃ m, m ∈ ms ∧
       str_find url m = Some (length (strip_params ms url)) ∧
       ∀ m' i, m' ∈ ms → str_find url m' = Some i →
               length (strip_params ms url) ≤ i.
Proof.
  intros Hsub (m0 & Hm0 & Hin0).
  assert (∀ m', m' ∈ ms → m' ≠ []) as Hne.
  { intros m' Hm'. by apply STRIP_PARAMETERS_nonempty, Hsub. }
  pose proof (strip_params_prefix ms url) as Hpre.
  destruct (strip_params_cut ms url url) as [Heq|(m & Hm & Hf)]; [done| |].
  { pose proof (strip_params_clean ms url m0 Hne Hm0) as Hclean.
    rewrite Heq in Hclean. apply str_in_true in Hin0 as [i Hi]. congruence. }
  set (n := strip_params ms url) in *.
  exists m. split_and!; [done..|].
  pose proof (proj1 (str_find_Some _ _ _) Hf) as [Hocc _].
  pose proof (proj1 (occurs_at_split _ _ _) Hocc) as (rest & Hsplit & Hle).
  assert (take (length n) url = n) as Htake.
  { destruct Hpre as [k Hk]. rewrite Hk. by rewrite take_app_length. }
  rewrite Htake in Hsplit.
  assert (0 < length m) as Hlen.
  { apply Hne in Hm. destruct m; [done|cbn [length]; lia]. }
  intros m' i Hm' Hf'. apply Nat.nlt_ge. intros Hlt.
  apply str_find_Some in Hf' as [Hocc' _].
  destruct (decide (i + length m' ≤ length n)) as [Hfit|Hover].
  - pose proof (strip_params_clean ms url m' Hne Hm') as Hclean. fold n in Hclean.
    rewrite str_find_None in Hclean. apply (Hclean i).
    by apply (occurs_at_within _ _ url).
  - destruct Hocc' as [_ Hp'].
    destruct (lookup_lt_is_Some_2 m' (length n - i)) as [c Hc]; [lia|].
    pose proof (prefix_lookup_Some _ _ _ _ Hc Hp') as Hurl.
    rewrite lookup_drop in Hurl.
    replace (i + (length n - i)) with (length n + 0) in Hurl by lia.
    rewrite Hsplit in Hurl. rewrite lookup_app_r in Hurl by lia.
    replace (length n + 0 - length n) with 0 in Hurl by lia.
    assert (head m = Some c) as Hhead.
    { destruct m; [cbn [length] in Hlen; lia|]. simpl in Hurl. simpl. congruence. }
    replace (length n - i) with (S (length n - i - 1)) in Hc by lia.
    exact (STRIP_PARAMETERS_no_overlap m m' _ c (Hsub _ Hm) (Hsub _ Hm') Hhead Hc).
Qed.

(** Two prefixes of a list that have the same length are equal. *)
Lemma prefix_same_length (a b l : str) :
  a `prefix_of` l → b `prefix_of` l → length a = length b → a = b.
Proof.
  intros Ha Hb Hlen.
  destruct (prefix_weak_total a b l Ha Hb) as [H|H].
  - apply prefix_length_eq; [done|lia].
  - symmetry. apply prefix_length_eq; [done|lia].
Qed.

(** An occurrence makes [str_find] answer, at that index or before. *)
Lemma str_find_occurs s sub j :
  occurs_at sub s j → ∃ i, str_find s sub = Some i ∧ i ≤ j.
Proof.
  intros Hocc. destruct (str_find s sub) as [i|] eqn:Hf.
  - exists i. split; [done|]. apply str_find_Some in Hf as [_ Hmin].
    apply Nat.nlt_ge. intros Hlt. by apply (Hmin j).
  - rewrite str_find_None in Hf. by apply Hf in Hocc.
Qed.

(** The cut falls where the appended marker begins. *)
Lemma normalized_url_append_marker (base m rest : str) :
  m ∈ STRIP_PARAMETERS →
  (∀ m', m' ∈ STRIP_PARAMETERS → str_in m' base = false) →
  normalized_url (base ++ m ++ rest) = base.
Proof.
  intros Hm Hclean. set (url := base ++ m ++ rest).
  assert (occurs_at m url (length base)) as Hocc.
  { apply occurs_at_split. exists rest. unfold url.
    rewrite take_app_length, length_app. split; [done|lia]. }
  destruct (str_find_occurs _ _ _ Hocc) as (i0 & Hi0 & Hle0).
  destruct (strip_params_cut_earliest STRIP_PARAMETERS url)
    as (m1 & Hm1 & Hf1 & Hmin); [done| |].
  { exists m. split; [done|]. apply str_in_true. eauto. }
  fold (normalized_url url) in Hf1, Hmin.
  apply (prefix_same_length _ _ url);
    [apply normalized_url_prefix|by apply prefix_app_r|].
  pose proof (Hmin m i0 Hm Hi0) as Hle.
  apply Nat.le_antisymm; [lia|]. apply Nat.nlt_ge. intros Hlt.
  apply str_find_Some in Hf1 as [Hocc1 _].
  destruct (decide (length (normalized_url url) + length m1 ≤ length base))
    as [Hfit|Hover].
  - specialize (Hclean m1 Hm1). apply str_in_false in Hclean.
    rewrite str_find_None in Hclean.
    apply (Hclean (length (normalized_url url))).
    apply (occurs_at_within _ _ url); [by apply prefix_app_r|done..].
  - destruct Hocc1 as [_ Hp1].
    set (q := length (normalized_url url)) in *.
    destruct (lookup_lt_is_Some_2 m1 (length base - q)) as [c Hc]; [lia|].
    pose proof (prefix_lookup_Some _ _ _ _ Hc Hp1) as Hurl.
    rewrite lookup_drop in Hurl.
    replace (q + (length base - q)) with (length base + 0) in Hurl by lia.
    unfold url in Hurl. rewrite lookup_app_r in Hurl by lia.
    replace (length base + 0 - length base) with 0 in Hurl by lia.
    assert (head m = Some c) as Hhead.
    { pose proof (STRIP_PARAMETERS_nonempty m Hm).
      destruct m; [done|]. simpl in Hurl. simpl. congruence. }
    replace (length base - q) with (S (length base - q - 1)) in Hc by lia.
    exact (STRIP_PARAMETERS_no_overlap m m1 _ c Hm Hm1 Hhead Hc).
Qed.

(** X3: a tracker appended to a URL that holds no configured marker is
    removed whole: the normalised URL of [base ++ marker ++ rest] is [base],
    whatever follows the marker. *)
Theorem normalized_url_of_tracked (base m rest : str) :
  m ∈ STRIP_PARAMETERS →
  (∀ m', m' ∈ STRIP_PARAMETERS → str_in m' base = false) →
  normalized_url (base ++ m ++ rest) = base.
Proof. apply normalized_url_append_marker. Qed.

Lemma normalized_url_of_tracked_witness :
  normalized_url (lit "https://a.com/x" ++ lit "&utm" ++ lit "_source=a?CMP=b")
  = lit "https://a.com/x".
Proof.
  apply normalized_url_of_tracked; [right; left|].
  unfold STRIP_PARAMETERS. intros m'.
  rewrite !elem_of_cons, elem_of_nil.
  intros [->|[->|[->|[->|[]]]]]; vm_compute; reflexivity.
Defined.

(** X4: the order in which the configured markers are tried does not
    matter: the loop of lines 140-142 run over any rearrangement of
    [STRIP_PARAMETERS] yields the same normalised URL. *)
Theorem normalized_url_marker_order (ms : list str) (url : str) :
  ms ≡ₚ STRIP_PARAMETERS →
  strip_params ms url = normalized_url url.
Proof.
  intros Hperm.
  assert (∀ m, m ∈ ms ↔ m ∈ STRIP_PARAMETERS) as Hmem.
  { intros m. by rewrite Hperm. }
  destruct (decide (Exists (λ m, str_in m url = true) STRIP_PARAMETERS))
    as [Hex|Hno].
  - apply Exists_exists in Hex as (m0 & Hm0 & Hin0).
    destruct (strip_params_cut_earliest ms url)
      as (ma & Hma & Hfa & Hmina).
    { intros m. apply Hmem. }
    { exists m0. split; [by apply Hmem|done]. }
    destruct (strip_params_cut_earliest STRIP_PARAMETERS url)
      as (mb & Hmb & Hfb & Hminb); [done|by exists m0|].
    apply (prefix_same_length _ _ url);
      [apply strip_params_prefix|apply normalized_url_prefix|].
    unfold normalized_url. apply Nat.le_antisymm.
    + apply (Hmina mb); [by apply Hmem|done].
    + apply (Hminb ma); [by apply Hmem|done].
  - assert (∀ m, m ∈ STRIP_PARAMETERS → str_in m url = false) as Habs.
    { intros m Hm. apply not_true_iff_false. intros Hin.
      apply Hno, Exists_exists. eauto. }
    unfold normalized_url. rewrite !strip_params_absent; [done|done|].
    intros m Hm. by apply Habs, Hmem.
Qed.

Lemma normalized_url_marker_order_witness :
  strip_params [lit "&CMP"; lit "?CMP"; lit "&utm"; lit "?utm"]
    (lit "a&utm=1?utm=2")
  = normalized_url (lit "a&utm=1?utm=2").
Proof.
  apply normalized_url_marker_order.
  exact (reverse_Permutation STRIP_PARAMETERS).
Defined.

(** ** The scan: what it leaves alone, and its queue *)

Lemma scan_frame_refl w : scan_frame w w.
Proof.
  unfold scan_frame. split_and!; try done.
  intros r p Hp. exists []. by rewrite bulk_append_nil.
Qed.

Lemma scan_frame_trans w1 w2 w3 :
  scan_frame w1 w2 → scan_frame w2 w3 → scan_frame w1 w3.
Proof.
  unfold scan_frame.
  intros (Ha1 & Ha2 & Ha3 & Ha4 & Ha5 & Ha6 & Ha7 & Ha8 & Ha9 & Ha10 & Ha11 & Ha12)
         (Hb1 & Hb2 & Hb3 & Hb4 & Hb5 & Hb6 & Hb7 & Hb8 & Hb9 & Hb10 & Hb11 & Hb12).
  split_and!; try congruence.
  - by etrans.
  - intros r Hr. rewrite Hb11 by congruence. by apply Ha11.
  - intros r p Hp. destruct (Ha12 r p Hp) as [q1 Hq1].
    destruct (Hb12 r _ Hq1) as [q2 Hq2]. exists (q1 ++ q2).
    by rewrite Hq2, bulk_append_append.
Qed.

Lemma scan_frame_add_output o w : scan_frame w (add_output o w).
Proof.
  unfold scan_frame. split_and!; try done.
  - by apply prefix_app_r.
  - intros r p Hp. exists []. by rewrite bulk_append_nil.
Qed.

Lemma scan_item_frame item c w : scan_frame w (scan_item item c w).2.
Proof.
  destruct (decide (normalized_url (given_url item) ∈ c)) as [Hin|Hin].
  - destruct (PocketInstance w) as [g|] eqn:Hg.
    + rewrite (scan_item_duplicate _ _ _ g) by done.
      unfold scan_frame. cbn [snd]. split_and!; try done.
      * cbn [heap set_heap]. by rewrite length_alter.
      * by apply prefix_app_r.
      * intros r Hr. cbn [heap set_heap add_output].
        apply list_lookup_alter_ne. congruence.
      * intros r p Hp. cbn [heap set_heap add_output].
        destruct (decide (g = r)) as [->|Hne].
        -- eexists. by rewrite list_lookup_alter_eq, Hp.
        -- exists []. by rewrite list_lookup_alter_ne, bulk_append_nil.
    + rewrite scan_item_duplicate_unbound by done. apply scan_frame_add_output.
  - rewrite scan_item_fresh by done. apply scan_frame_add_output.
Qed.

Lemma scan_items_frame items c w : scan_frame w (scan_items items c w).2.
Proof.
  revert c w. induction items as [|r items IH]; intros c w.
  - apply scan_frame_refl.
  - cbn [scan_items]. unfold mbind, M_bind.
    pose proof (scan_item_frame r c w) as Hstep.
    destruct (scan_item r c w) as [[e|c1] w1]; [done|].
    by apply (scan_frame_trans _ w1).
Qed.

Lemma queue_dedupe_actions_scan_frame (pocket_instance : ref) (w : World) :
  scan_frame w (queue_dedupe_actions pocket_instance w).2.
Proof.
  unfold queue_dedupe_actions, mbind, M_bind, Pocket_get, print.
  pose proof (scan_items_frame (remote_list w) []
                (add_output
                   [Printed (lit "Found " ++ str_of_nat (length (remote_list w))
                             ++ lit " articles.")] w)) as Hscan.
  destruct (scan_items _ _ _) as [[e|c] w1];
    exact (scan_frame_trans _ _ _ (scan_frame_add_output _ w) Hscan).
Qed.

(** X5: in every world, [PocketInstance] bound or not and whether it
    returns or raises, [queue_dedupe_actions] sends nothing to the service
    and reads no input, opens no tab, creates no client object, leaves the
    binding of [PocketInstance] and every other object as they were, and
    only adds to the console and to the queue. *)
Theorem queue_dedupe_actions_frame (pocket_instance : ref) (w : World) :
  scan_frame w (queue_dedupe_actions pocket_instance w).2.
Proof. apply queue_dedupe_actions_scan_frame. Qed.

Lemma flagged_sublist c items : flagged c items `sublist_of` items.
Proof.
  revert c. induction items as [|r items IH]; intros c; cbn [flagged].
  - done.
  - case_bool_decide; [by apply sublist_skip|by apply sublist_cons].
Qed.


Lemma cache_after_grows c items x : x ∈ c → x ∈ cache_after c items.
Proof.
  revert c. induction items as [|r items IH]; intros c Hx; cbn [cache_after].
  - done.
  - case_bool_decide; apply IH; [done|]. apply elem_of_app. by left.
Qed.

Lemma cache_after_covers c items r :
  r ∈ items → normalized_url (given_url r) ∈ cache_after c items.
Proof.
  revert c. induction items as [|r0 items IH]; intros c Hr.
  - by apply elem_of_nil in Hr.
  - cbn [cache_after]. apply elem_of_cons in Hr as [->|Hr].
    + case_bool_decide; apply cache_after_grows; [done|].
      apply elem_of_app. right. by apply list_elem_of_singleton.
    + case_bool_decide; by apply IH.
Qed.



Lemma scan_items_unbound items c w :
  PocketInstance w = None →
  (∃ c' w', scan_items items c w = (inr c', w')) ↔ flagged c items = [].
Proof.
  revert c w. induction items as [|r items IH]; intros c w Hg.
  - cbn [scan_items flagged]. split; [done|]. intros _. by eexists _, _.
  - cbn [scan_items flagged]. unfold mbind, M_bind. case_bool_decide as Hin.
    + rewrite scan_item_duplicate_unbound by done. split; [|done].
      by intros (c' & w' & H).
    + rewrite scan_item_fresh by done. by apply IH.
Qed.

Lemma flagged_nil_iff items :
  flagged [] items = [] ↔ ¬ ∃ r, later_duplicate items r.
Proof.
  split.
  - intros Hnil [r Hr]. apply elem_of_flagged_nil in Hr.
    rewrite Hnil in Hr. by apply elem_of_nil in Hr.
  - intros Hno. destruct (flagged [] items) as [|r l] eqn:Hf; [done|].
    exfalso. apply Hno. exists r. apply elem_of_flagged_nil.
    rewrite Hf. left.
Qed.

(** X7: called while [PocketInstance] is not bound (from a module that
    imports the script), [queue_dedupe_actions] returns normally iff no
    record of the list stands after a record with the same normalised URL;
    otherwise it raises [NameError].  Either way no client object is
    changed. *)
Theorem queue_dedupe_actions_unbound (pocket_instance : ref) (w : World) :
  PocketInstance w = None →
  heap (queue_dedupe_actions pocket_instance w).2 = heap w ∧
  ((queue_dedupe_actions pocket_instance w).1 = inr tt
   ↔ ¬ ∃ r, later_duplicate (remote_list w) r) ∧
  ((queue_dedupe_actions pocket_instance w).1 = inr tt ∨
   (queue_dedupe_actions pocket_instance w).1
   = inl (NameError "PocketInstance")).
Proof.
  intros Hg. split.
  { pose proof (queue_dedupe_actions_scan_frame pocket_instance w) as Hframe.
    destruct Hframe as (_ & _ & _ & _ & _ & _ & _ & _ & Hlen & _ & Hsame & _).
    apply list_eq. intros r. apply Hsame. by rewrite Hg. }
  unfold queue_dedupe_actions, mbind, M_bind, Pocket_get, print.
  set (w0 := add_output _ w).
  assert (PocketInstance w0 = None) as Hg0 by done.
  pose proof (scan_items_unbound (remote_list w) [] w0 Hg0) as Hret.
  pose proof (scan_items_cache (remote_list w) [] w0) as Hc.
  rewrite flagged_nil_iff in Hret.
  destruct (scan_items (remote_list w) [] w0) as [[e|c'] w'].
  - destruct Hc as [-> _]. split; [|by right]. split; [done|].
    intros Hno. apply Hret in Hno as (c' & w'' & H). done.
  - split; [|by left]. split; [|done]. intros _. apply Hret. by eexists _, _.
Qed.

Lemma queue_dedupe_actions_unbound_witness :
  (queue_dedupe_actions 0 (example_world [] [example_session] None)).1 = inr tt
  ↔ ¬ ∃ r, later_duplicate example_items r.
Proof.
  apply (queue_dedupe_actions_unbound 0
           (example_world [] [example_session] None)).
  reflexivity.
Defined.

(** X8: the cache lives for one call only: [queue_dedupe_actions] called a
    second time before any commit queues every deletion a second time. *)
Theorem queue_dedupe_actions_twice
    (pocket_instance pocket_instance' : ref) (w : World) (g : ref) (p : Pocket) :
  PocketInstance w = Some g →
  heap w !! g = Some p →
  ∃ q w1 w2,
    queue_dedupe_actions pocket_instance w = (inr tt, w1) ∧
    queue_dedupe_actions pocket_instance' w1 = (inr tt, w2) ∧
    heap w1 !! g = Some (bulk_append q p) ∧
    heap w2 !! g = Some (bulk_append (q ++ q) p) ∧
    ∀ id, action_delete id ∈ q
          ↔ ∃ r, later_duplicate (remote_list w) r ∧ item_id r = id.
Proof.
  intros Hg Hp. eexists (deletions (flagged [] (remote_list w))), _, _.
  split; [by apply (queue_dedupe_actions_bound _ _ g)|].
  split; [by apply (queue_dedupe_actions_bound _ _ g)|].
  cbn [heap set_heap add_output remote_list]. split_and!.
  - by rewrite list_lookup_alter_eq, Hp.
  - by rewrite alter_bulk_append_append, list_lookup_alter_eq, Hp.
  - intros id. rewrite elem_of_deletions.
    by setoid_rewrite elem_of_flagged_nil.
Qed.

Lemma queue_dedupe_actions_twice_witness :
  ∃ q w1 w2,
    queue_dedupe_actions 0 (example_world [] [example_session] (Some 0))
    = (inr tt, w1) ∧
    queue_dedupe_actions 0 w1 = (inr tt, w2) ∧
    heap w2 !! 0 = Some (bulk_append (q ++ q) example_session).
Proof.
  destruct (queue_dedupe_actions_twice 0 0
              (example_world [] [example_session] (Some 0)) 0 example_session)
    as (q & w1 & w2 & H1 & H2 & _ & H3 & _); [reflexivity|reflexivity|].
  exists q, w1, w2. split; [exact H1|]. split; [exact H2|exact H3].
Defined.

(** ** Authentication *)

(** Runs the console, browser and object-store steps of a closed script
    prefix on a world given by its fields. *)
Ltac run_world :=
  cbv beta iota delta
    [authenticate get_pocket_instance mbind M_bind mret M_ret print input
     webbrowser_open_new_tab Pocket_get_request_token Pocket_get_access_token
     Pocket_new load_PocketInstance store_PocketInstance fst snd
     add_output set_stdin add_tab set_heap set_PocketInstance add_sent
     stdin stdout tabs heap PocketInstance remote_list remote_request_token
     remote_access_token remote_response remote_sent].

(** X9: [authenticate] announces and opens the authorisation page of the
    request token it was given by the service before it waits for a line;
    it returns that token when a line comes (whatever the line says) and
    raises [EOFError] at the end of the input, the page being open all the
    same.  It touches no client object and sends no batch. *)
Theorem authenticate_opens_then_waits (consumer_key redirect_uri : str) (w : World) :
  (authenticate consumer_key redirect_uri w).1
  = match stdin w with
    | [] => inl EOFError
    | _ :: _ => inr (remote_request_token w)
    end ∧
  stdin (authenticate consumer_key redirect_uri w).2 = tail (stdin w) ∧
  tabs (authenticate consumer_key redirect_uri w).2
  = tabs w ++ [Pocket_get_auth_url (remote_request_token w) redirect_uri] ∧
  stdout (authenticate consumer_key redirect_uri w).2
  = stdout w
    ++ [ Printed (lit "Opening a browser tab to authenticate with Pocket.");
         Prompted (lit "After you have authenticated in the browser, press Enter...") ] ∧
  heap (authenticate consumer_key redirect_uri w).2 = heap w ∧
  PocketInstance (authenticate consumer_key redirect_uri w).2 = PocketInstance w ∧
  remote_sent (authenticate consumer_key redirect_uri w).2 = remote_sent w.
Proof.
  destruct w as [typed ? ? ? ? ? ? ? ? ?].
  destruct typed as [|line rest]; run_world;
    (split_and!; [reflexivity..|list_assoc|reflexivity|reflexivity|reflexivity]).
Qed.

(** X10: given a consumer key, [get_pocket_instance] asks for no key and
    uses the key as it is; after one line of input it returns a new client
    object that holds the key, the access token of the service and an empty
    queue.  The objects that existed are as before, and the name
    [PocketInstance] is not bound by the function. *)
Theorem get_pocket_instance_with_key
    (k redirect_uri line : str) (rest : list str) (w : World) :
  stdin w = line :: rest →
  ∃ w',
    get_pocket_instance (Some k) redirect_uri w = (inr (length (heap w)), w') ∧
    heap w' = heap w ++ [mkPocket k (remote_access_token w) []] ∧
    stdin w' = rest ∧
    stdout w'
    = stdout w
      ++ [ Printed (lit "Opening a browser tab to authenticate with Pocket.");
           Prompted (lit "After you have authenticated in the browser, press Enter...") ] ∧
    tabs w' = tabs w ++ [Pocket_get_auth_url (remote_request_token w) redirect_uri] ∧
    PocketInstance w' = PocketInstance w ∧
    remote_sent w' = remote_sent w.
Proof.
  intros Hin. destruct w as [typed ? ? ? ? ? ? ? ? ?].
  cbn [stdin] in Hin. subst typed. eexists. run_world.
  split_and!; [reflexivity..|list_assoc|reflexivity|reflexivity|reflexivity].
Qed.

Lemma get_pocket_instance_with_key_witness :
  ∃ w',
    get_pocket_instance (Some (lit " key")) (lit "https://google.com/")
      (example_world [lit ""] [example_session] None)
    = (inr 1, w') ∧
    heap w' = [example_session; mkPocket (lit " key") (lit "token") []].
Proof.
  destruct (get_pocket_instance_with_key (lit " key") (lit "https://google.com/")
              (lit "") [] (example_world [lit ""] [example_session] None))
    as (w' & H1 & H2 & _); [reflexivity|].
  exists w'. split; [exact H1|exact H2].
Defined.

(** X11: called without a key, [get_pocket_instance] asks for it first and
    keeps it without the white space around it, unchecked; after the key and
    one more line it returns a new client object with that key, the access
    token of the service and an empty queue. *)
Theorem get_pocket_instance_asks_key
    (redirect_uri key line : str) (rest : list str) (w : World) :
  stdin w = key :: line :: rest →
  ∃ w',
    get_pocket_instance None redirect_uri w = (inr (length (heap w)), w') ∧
    heap w' = heap w ++ [mkPocket (strip key) (remote_access_token w) []] ∧
    stdin w' = rest ∧
    stdout w'
    = stdout w
      ++ [ Prompted (lit "Enter your Pocket consumer key: ");
           Printed (lit "Opening a browser tab to authenticate with Pocket.");
           Prompted (lit "After you have authenticated in the browser, press Enter...") ] ∧
    tabs w' = tabs w ++ [Pocket_get_auth_url (remote_request_token w) redirect_uri] ∧
    PocketInstance w' = PocketInstance w ∧
    remote_sent w' = remote_sent w.
Proof.
  intros Hin. destruct w as [typed ? ? ? ? ? ? ? ? ?].
  cbn [stdin] in Hin. subst typed. eexists. run_world.
  split_and!; [reflexivity..|list_assoc|reflexivity|reflexivity|reflexivity].
Qed.

Lemma get_pocket_instance_asks_key_witness :
  ∃ w',
    get_pocket_instance None (lit "https://google.com/")
      (example_world [lit " key "; lit ""] [] None)
    = (inr 0, w') ∧
    heap w' = [mkPocket (lit "key") (lit "token") []].
Proof.
  destruct (get_pocket_instance_asks_key (lit "https://google.com/")
              (lit " key ") (lit "") []
              (example_world [lit " key "; lit ""] [] None))
    as (w' & H1 & H2 & _); [reflexivity|].
  exists w'. split; [exact H1|]. rewrite H2. vm_compute. reflexivity.
Defined.

(** X12: [get_pocket_instance] fails in one way only, [EOFError], exactly
    when fewer lines are typed than it asks for (one with a key, two
    without); when it fails no client object has been created, and it never
    sends anything to the service. *)
Theorem get_pocket_instance_failure
    (consumer_key : option str) (redirect_uri : str) (w : World) :
  match (get_pocket_instance consumer_key redirect_uri w).1 with
  | inl e =>
      e = EOFError ∧
      length (stdin w) < match consumer_key with Some _ => 1 | None => 2 end ∧
      heap (get_pocket_instance consumer_key redirect_uri w).2 = heap w
  | inr r =>
      r = length (heap w) ∧
      match consumer_key with Some _ => 1 | None => 2 end ≤ length (stdin w) ∧
      length (heap (get_pocket_instance consumer_key redirect_uri w).2)
      = S (length (heap w))
  end ∧
  remote_sent (get_pocket_instance consumer_key redirect_uri w).2 = remote_sent w.
Proof.
  destruct w as [typed ? ? ? ? ? ? ? ? ?].
  destruct consumer_key as [k|]; destruct typed as [|l1 [|l2 rest]]; run_world;
    cbn [length]; rewrite ?length_app; cbn [length];
    (split_and!; first [reflexivity|lia]).
Qed.

(** ** The run of the script *)

Lemma main_no_input w :
  stdin w = [] →
  main w
  = (inl EOFError,
     add_output [Prompted (lit "Enter your Pocket consumer key: ")] w).
Proof.
  intros Hin. destruct w as [typed ? ? ? ? ? ? ? ? ?].
  cbn [stdin] in Hin. subst typed. unfold main. run_world. reflexivity.
Qed.

Lemma main_key_only w key :
  stdin w = [key] →
  ∃ w', main w = (inl EOFError, w') ∧ remote_sent w' = remote_sent w.
Proof.
  intros Hin. destruct w as [typed ? ? ? ? ? ? ? ? ?].
  cbn [stdin] in Hin. subst typed. unfold main. run_world.
  eexists. split; reflexivity.
Qed.

(** X13: the script asks for three lines (the key, the acknowledgement, the
    answer): it ends normally iff at least three are typed, and otherwise
    stops with [EOFError] at the prompt it could not read, without having
    sent anything.  No other exception leaves the script: in particular the
    name [PocketInstance] is always bound when the scan needs it. *)
Theorem main_needs_three_lines (w : World) :
  ((main w).1 = inr tt ↔ 3 ≤ length (stdin w)) ∧
  ((main w).1 = inr tt ∨ (main w).1 = inl EOFError) ∧
  (length (stdin w) < 3 → remote_sent (main w).2 = remote_sent w).
Proof.
  destruct (stdin w) as [|key [|enter [|answer rest]]] eqn:Hin; cbn [length].
  - rewrite main_no_input by done. split_and!; [split; [done|lia]|by right|done].
  - destruct (main_key_only w key Hin) as (w' & -> & Hsent).
    split_and!; [split; [done|lia]|by right|done].
  - rewrite (main_eof w key enter) by done.
    split_and!; [split; [done|lia]|by right|done].
  - destruct (decide (strip answer = lit "y")) as [Hy|Hn].
    + rewrite (main_confirmed w key enter answer rest) by done.
      split_and!; [split; [lia|done]|by left|lia].
    + rewrite (main_declined w key enter answer rest) by done.
      split_and!; [split; [lia|done]|by left|lia].
Qed.

(** X14: what a run with three typed lines leaves behind: the three lines
    are consumed; exactly one tab was opened, at the authorisation page; one
    client object was created, with the stripped key, and [PocketInstance]
    names it, the objects that existed being as before.  When the answer
    strips to [y] the batch that was sent is the whole queue, in its order,
    and the queue is empty afterwards; otherwise the deletions are still
    queued on the object and nothing was sent. *)
Theorem main_leaves_behind
    (w : World) (key enter answer : str) (rest : list str) :
  stdin w = key :: enter :: answer :: rest →
  ∃ q,
    stdin (main w).2 = rest ∧
    tabs (main w).2
    = tabs w ++ [Pocket_get_auth_url (remote_request_token w)
                   (lit "https://google.com/")] ∧
    PocketInstance (main w).2 = Some (length (heap w)) ∧
    heap (main w).2
    = heap w ++ [mkPocket (strip key) (remote_access_token w)
                   (if bool_decide (strip answer = lit "y") then [] else q)] ∧
    remote_sent (main w).2
    = remote_sent w ++ (if bool_decide (strip answer = lit "y") then [q] else []) ∧
    (∃ l, l `sublist_of` remote_list w ∧
          q = (λ r, action_delete (item_id r)) <$> l) ∧
    ∀ id, action_delete id ∈ q
          ↔ ∃ r, later_duplicate (remote_list w) r ∧ item_id r = id.
Proof.
  intros Hin. exists (deletions (flagged [] (remote_list w))).
  assert ((∃ l, l `sublist_of` remote_list w ∧
                deletions (flagged [] (remote_list w))
                = (λ r, action_delete (item_id r)) <$> l) ∧
          ∀ id, action_delete id ∈ deletions (flagged [] (remote_list w))
                ↔ ∃ r, later_duplicate (remote_list w) r ∧ item_id r = id)
    as [Hq1 Hq2].
  { split.
    - exists (flagged [] (remote_list w)). split; [apply flagged_sublist|done].
    - intros id. rewrite elem_of_deletions.
      by setoid_rewrite elem_of_flagged_nil. }
  destruct (decide (strip answer = lit "y")) as [Hy|Hn].
  - rewrite (main_confirmed w key enter answer rest) by done.
    rewrite bool_decide_eq_true_2 by done.
    split_and!; [reflexivity..|done|done].
  - rewrite (main_declined w key enter answer rest) by done.
    rewrite bool_decide_eq_false_2 by done.
    split_and!; [reflexivity| |reflexivity|reflexivity| |done|done].
    + unfold answered, scanned, authenticated. world_eq.
    + cbn [snd remote_sent add_output answered set_stdin scanned set_heap
             set_PocketInstance authenticated add_tab].
      by rewrite app_nil_r.
Qed.

Lemma main_leaves_behind_witness :
  ∃ q,
    heap (main (example_world [lit " key"; lit ""; lit "n"] [] (Some 7))).2
    = [mkPocket (strip (lit " key")) (lit "token") q] ∧
    PocketInstance
      (main (example_world [lit " key"; lit ""; lit "n"] [] (Some 7))).2
    = Some 0.
Proof.
  destruct (main_leaves_behind
              (example_world [lit " key"; lit ""; lit "n"] [] (Some 7))
              (lit " key") (lit "") (lit "n") [])
    as (q & _ & _ & H1 & H2 & _); [reflexivity|].
  exists q. split; [exact H2|exact H1].
Defined.

(** ** The answers that confirm *)

Lemma lstrip_split s :
  ∃ l, s = l ++ lstrip s ∧ Forall (λ c, is_whitespace c = true) l.
Proof.
  induction s as [|c s (l & Hs & Hl)]; cbn [lstrip].
  - by exists [].
  - destruct (is_whitespace c) eqn:Hc.
    + exists (c :: l). split; [by rewrite Hs at 1|by constructor].
    + by exists [].
Qed.

Lemma lstrip_app_whitespace l s :
  Forall (λ c, is_whitespace c = true) l → lstrip (l ++ s) = lstrip s.
Proof.
  induction 1 as [|c l Hc _ IH]; [done|]. cbn [app lstrip]. by rewrite Hc.
Qed.

(** [strip] returns [y] exactly on a [y] with white space around it. *)
Lemma strip_is_y answer :
  strip answer = lit "y"
  ↔ ∃ l r, answer = l ++ lit "y" ++ r ∧
           Forall (λ c, is_whitespace c = true) l ∧
           Forall (λ c, is_whitespace c = true) r.
Proof.
  unfold strip, rstrip. split.
  - intros Hs. destruct (lstrip_split answer) as (l & Ha & Hl).
    destruct (lstrip_split (reverse (lstrip answer))) as (r & Hr & Hwr).
    assert (lstrip (reverse (lstrip answer)) = lit "y") as Hy.
    { apply (inj reverse). rewrite Hs. reflexivity. }
    rewrite Hy in Hr. apply (f_equal reverse) in Hr.
    rewrite reverse_involutive, reverse_app in Hr.
    exists l, (reverse r). split_and!.
    + rewrite Ha at 1. by rewrite Hr.
    + done.
    + by apply Forall_reverse.
  - intros (l & r & -> & Hl & Hr).
    rewrite lstrip_app_whitespace by done.
    change (lstrip (lit "y" ++ r)) with (lit "y" ++ r).
    rewrite reverse_app, lstrip_app_whitespace by by apply Forall_reverse.
    reflexivity.
Qed.

(** X15: the answers on which the script sends the batch are exactly the
    lines made of a single [y] with any white space before and after it;
    every other line, [Y] and the empty line included, sends nothing. *)
Theorem main_accepts_padded_y
    (w : World) (key enter answer : str) (rest : list str) :
  stdin w = key :: enter :: answer :: rest →
  (∃ batch, remote_sent (main w).2 = remote_sent w ++ [batch])
  ↔ ∃ l r, answer = l ++ lit "y" ++ r ∧
           Forall (λ c, is_whitespace c = true) l ∧
           Forall (λ c, is_whitespace c = true) r.
Proof.
  intros Hin. rewrite <- strip_is_y.
  destruct (decide (strip answer = lit "y")) as [Hy|Hn].
  - rewrite (main_confirmed w key enter answer rest) by done.
    split; [done|]. intros _. eexists. reflexivity.
  - rewrite (main_declined w key enter answer rest) by done.
    split; [|done]. intros [batch Hb]. exfalso.
    cbn [snd remote_sent add_output answered set_stdin scanned set_heap
           set_PocketInstance authenticated add_tab] in Hb.
    apply (f_equal length) in Hb. rewrite length_app in Hb.
    cbn [length] in Hb. lia.
Qed.

Lemma main_accepts_padded_y_witness :
  (∃ batch,
     remote_sent
       (main (example_world [lit "key"; lit ""; lit "  y "] [] None)).2
     = [] ++ [batch])
  ↔ ∃ l r, lit "  y " = l ++ lit "y" ++ r ∧
           Forall (λ c, is_whitespace c = true) l ∧
           Forall (λ c, is_whitespace c = true) r.
Proof.
  apply (main_accepts_padded_y
           (example_world [lit "key"; lit ""; lit "  y "] [] None)
           (lit "key") (lit "") (lit "  y ") []).
  reflexivity.
Defined.

(** ** Variants of one article *)

Lemma normalized_url_variant base u :
  (∀ m, m ∈ STRIP_PARAMETERS → str_in m base = false) →
  variant_of base u → normalized_url u = base.
Proof.
  intros Hclean [->|(m & rest & Hm & ->)].
  - by apply strip_params_absent.
  - by apply normalized_url_append_marker.
Qed.

(** X16: of two records whose URLs are variants of one tracker-free URL
    (that URL itself, or that URL followed by a configured marker and
    anything), the later one is queued for deletion, and the tracker-free
    URL is what the cache holds for them. *)
Theorem variants_are_deduplicated
    (w : World) (g : ref) (p : Pocket) (items : list Item)
    (base : str) (i j : nat) (ri rj : Item) :
  PocketInstance w = Some g →
  heap w !! g = Some p →
  (∀ m, m ∈ STRIP_PARAMETERS → str_in m base = false) →
  j < i →
  items !! i = Some ri →
  items !! j = Some rj →
  variant_of base (given_url ri) →
  variant_of base (given_url rj) →
  ∃ cache q w',
    scan_items items [] w = (inr cache, w') ∧
    heap w' !! g = Some (bulk_append q p) ∧
    action_delete (item_id ri) ∈ q ∧
    base ∈ cache.
Proof.
  intros Hg Hp Hclean Hji Hi Hj Hvi Hvj.
  pose proof (normalized_url_variant _ _ Hclean Hvi) as Hni.
  pose proof (normalized_url_variant _ _ Hclean Hvj) as Hnj.
  eexists _, (deletions (flagged [] items)), _.
  split; [by apply (scan_items_bound _ _ _ g)|]. split_and!.
  - cbn [heap set_heap]. by rewrite list_lookup_alter_eq, Hp.
  - apply elem_of_deletions. exists ri. split; [|done].
    apply elem_of_flagged_nil. exists i, j, rj. split_and!; [done..|congruence].
  - rewrite <- Hni. apply cache_after_covers.
    by apply list_elem_of_lookup_2 in Hi.
Qed.

Lemma variants_are_deduplicated_witness :
  ∃ cache q w',
    scan_items example_items [] (example_world [] [example_session] (Some 0))
    = (inr cache, w') ∧
    heap w' !! 0 = Some (bulk_append q example_session) ∧
    action_delete (lit "2") ∈ q ∧
    lit "https://a.com/x" ∈ cache.
Proof.
  apply (variants_are_deduplicated
           (example_world [] [example_session] (Some 0)) 0 example_session
           example_items (lit "https://a.com/x") 1 0
           (mkItem (lit "2") (lit "https://a.com/x"))
           (mkItem (lit "1") (lit "https://a.com/x?utm=1")));
    try reflexivity.
  - unfold STRIP_PARAMETERS. intros m.
    rewrite !elem_of_cons, elem_of_nil.
    intros [->|[->|[->|[->|[]]]]]; vm_compute; reflexivity.
  - lia.
  - by left.
  - right. exists (lit "?utm"), (lit "=1"). split; [left|reflexivity].
Defined.
